(** * Monet painting GAN notebook: training step and submission packaging

    A shallow embedding of the code cells of [Generative-Dog-Images.ipynb]:
    the two Keras layer stacks ([make_generator_model],
    [make_discriminator_model]), the adversarial [train_step] and the loop
    that packages generated images into [images.zip].

    Tensor entries are modelled as real numbers.  The linear-algebra kernels
    of the tensor library (dense products, convolutions, batch statistics),
    its random generator and its automatic differentiation are taken as an
    interface ([Backend]); the shapes they produce, the variables they read
    and write, and everything the notebook itself computes are written out.
    The arithmetic the notebook does on images itself (rescaling before the
    conversion to bytes, normalisation of the paintings) is rounded to
    float32 after every operation, as the library does. *)

From Stdlib Require Import String Ascii DecimalString DecimalNat.
From Stdlib Require Import Reals Lra Lia Arith NArith ZArith Bool List FinFun.
From Stdlib Require Import FunctionalExtensionality.
Import ListNotations.

Set Implicit Arguments.

(** ** Arrays *)

(** A numpy array or a tensor: a shape and the entries in row-major order.
    Axis lengths are binary numbers: the notebook's run into the tens of
    thousands. *)
Record ndarray (A : Type) : Type := mk_ndarray {
  shape : list N;
  data : list A
}.

Definition tensor : Type := ndarray R.

(** Number of entries of an array of shape [s]. *)
Definition size (s : list N) : N := fold_right N.mul 1%N s.

(** ** Keras layers, as the notebook configures them *)

Inductive padding : Type := same | valid.

Inductive activation : Type := linear | tanh_act.

Inductive layer : Type :=
| Dense (units : N) (use_bias : bool)
| BatchNormalization
| LeakyReLU
| Reshape (target_shape : list N)
| Conv2DTranspose (filters : N) (kernel_size strides : N * N)
    (pad : padding) (use_bias : bool) (act : activation)
| Conv2D (filters : N) (kernel_size strides : N * N) (pad : padding)
| Dropout (rate : R)
| Flatten.

Local Open Scope N_scope.

(** Length of one spatial axis after a transposed convolution. *)
Definition deconv_output_length (input_length filter_size stride : N)
    (p : padding) : N :=
  match p with
  | same => input_length * stride
  | valid => input_length * stride + (filter_size - stride)
  end.

(** Length of one spatial axis after a convolution; [None] when the window
    does not fit. *)
Definition conv_output_length (input_length filter_size stride : N)
    (p : padding) : option N :=
  match p with
  | same => Some ((input_length + stride - 1) / stride)
  | valid =>
      if filter_size <=? input_length
      then Some ((input_length - filter_size + 1 + stride - 1) / stride)
      else None
  end.

(** Shape of one sample after a layer, given the shape of one sample before
    it (the batch axis is left out); [None] when the layer rejects the
    input. *)
Definition compute_output_shape (l : layer) (s : list N)
    : option (list N) :=
  match l with
  | Dense units _ =>
      match s with
      | [] => None
      | _ => Some (removelast s ++ [units])
      end
  | BatchNormalization =>
      match s with
      | [] => None
      | _ => Some s
      end
  | LeakyReLU => Some s
  | Reshape target_shape =>
      if size s =? size target_shape then Some target_shape else None
  | Conv2DTranspose filters (kh, kw) (sh, sw) p _ _ =>
      match s with
      | [h; w; _] =>
          if (0 <? sh) && (0 <? sw)
          then Some [deconv_output_length h kh sh p;
                     deconv_output_length w kw sw p; filters]
          else None
      | _ => None
      end
  | Conv2D filters (kh, kw) (sh, sw) p =>
      match s with
      | [h; w; _] =>
          if (0 <? sh) && (0 <? sw)
          then match conv_output_length h kh sh p,
                     conv_output_length w kw sw p with
               | Some h', Some w' => Some [h'; w'; filters]
               | _, _ => None
               end
          else None
      | _ => None
      end
  | Dropout _ => Some s
  | Flatten => Some [size s]
  end.

(** Shapes of the variables a layer creates when it is built for samples of
    shape [s]: the trainable ones, then the others (the moving mean and
    variance of a batch normalisation). *)
Definition weight_shapes (l : layer) (s : list N)
    : list (list N) * list (list N) :=
  let c := last s 0 in
  match l with
  | Dense units use_bias =>
      ([c; units] :: (if use_bias then [[units]] else []), [])
  | BatchNormalization => ([[c]; [c]], [[c]; [c]])
  | Conv2DTranspose filters (kh, kw) _ _ use_bias _ =>
      ([kh; kw; filters; c] :: (if use_bias then [[filters]] else []), [])
  | Conv2D filters (kh, kw) _ _ => ([[kh; kw; c; filters]; [filters]], [])
  | LeakyReLU | Reshape _ | Dropout _ | Flatten => ([], [])
  end.

Local Close Scope N_scope.

(** ** Built models *)

(** A variable of the tensor library, named by the order of its creation. *)
Definition var : Type := nat.

Record built_layer : Type := mk_built_layer {
  config : layer;
  input_shape : list N;
  trainable_weights : list var;
  non_trainable_weights : list var
}.

Record Sequential : Type := mk_Sequential {
  model_input_shape : list N;
  layers : list built_layer
}.

Definition trainable_variables (m : Sequential) : list var :=
  flat_map trainable_weights (layers m).

Definition non_trainable_variables (m : Sequential) : list var :=
  flat_map non_trainable_weights (layers m).

(** [model.add(l)] on a model whose input shape is known: each layer is built
    at once for the output shape of the layers before it, and its variables
    are created then.  [next] counts the variables created so far. *)
Fixpoint add_layers (next : nat) (s : list N) (ls : list layer)
    : option (list built_layer * nat) :=
  match ls with
  | [] => Some ([], next)
  | l :: ls' =>
      match compute_output_shape l s with
      | None => None
      | Some s' =>
          let nt := length (fst (weight_shapes l s)) in
          let nn := length (snd (weight_shapes l s)) in
          match add_layers (next + nt + nn) s' ls' with
          | None => None
          | Some (bs, next') =>
              Some (mk_built_layer l s (seq next nt) (seq (next + nt) nn)
                      :: bs, next')
          end
      end
  end.

Definition build (next : nat) (s : list N) (ls : list layer)
    : option (Sequential * nat) :=
  match add_layers next s ls with
  | None => None
  | Some (bs, next') => Some (mk_Sequential s bs, next')
  end.

(** Shape of one output sample of a stack of layers on samples of shape [s]. *)
Fixpoint stack_output_shape (ls : list layer) (s : list N)
    : option (list N) :=
  match ls with
  | [] => Some s
  | l :: ls' =>
      match compute_output_shape l s with
      | None => None
      | Some s' => stack_output_shape ls' s'
      end
  end.

Definition output_shape (m : Sequential) : option (list N) :=
  stack_output_shape (map config (layers m)) (model_input_shape m).

(** ** The notebook's two models *)

Local Open Scope N_scope.

Definition make_generator_model (next : nat)
    : option (Sequential * nat) :=
  build next [100]
    [ Dense (8*8*256) false;
      BatchNormalization;
      LeakyReLU;
      Reshape [8; 8; 256];
      Conv2DTranspose 128 (5,5) (2,2) same false linear;
      BatchNormalization;
      LeakyReLU;
      Conv2DTranspose 64 (5,5) (2,2) same false linear;
      BatchNormalization;
      LeakyReLU;
      Conv2DTranspose 3 (5,5) (1,1) same false tanh_act ].

Definition make_discriminator_model (next : nat)
    : option (Sequential * nat) :=
  build next [64; 64; 3]
    [ Conv2D 64 (5,5) (2,2) same;
      LeakyReLU;
      Dropout (3/10)%R;
      Conv2D 128 (5,5) (2,2) same;
      LeakyReLU;
      Dropout (3/10)%R;
      Flatten;
      Dense 1 true ].

Definition noise_dim : N := 100.

Local Close Scope N_scope.

(** ** The tensor library *)

(** What the notebook takes from the tensor library without fixing it: the
    global random generator, the numeric kernels of the layers that own
    variables, the update of the moving statistics of a batch
    normalisation, and automatic differentiation. *)
Class Backend : Type := {
  seed : Type;
  (** the generator's state after one draw *)
  advance : seed -> seed;
  (** entry [k] of a draw of independent standard normal values *)
  normal : seed -> nat -> R;
  (** entry [k] of a draw of independent uniform values of [[0,1)] *)
  uniform : seed -> nat -> R;
  (** entry [k] of the output of a layer with variables, before its
      activation, from the layer's configuration, the training flag, the
      values of its variables and its input *)
  kernel : layer -> bool -> list tensor -> tensor -> nat -> R;
  (** new moving mean and variance of a batch normalisation, from the old
      ones and the batch *)
  moving_statistics : list tensor -> tensor -> list tensor;
  (** [gradient f sigma v]: the derivative of [f] in the variable [v] at the
      variable values [sigma] *)
  gradient : ((var -> tensor) -> R) -> (var -> tensor) -> var -> tensor;
  (** what an optimizer does when it is handed no gradient at all: Keras 3
      raises ([true]); Keras 2 returns at once and counts no step
      ([false]) *)
  empty_gradients_raise : bool
}.

(** State of one [tf.keras.optimizers.Adam]: its step counter and its two
    moment estimates per variable. *)
Record Adam : Type := mk_Adam {
  learning_rate : R;
  iterations : nat;
  slot_m : var -> option (list R);
  slot_v : var -> option (list R)
}.

Inductive optimizer_name : Type :=
| generator_optimizer
| discriminator_optimizer.

(** Computations that read and write a state [S] and may raise. *)
Definition M (S A : Type) : Type := S -> option (A * S).

Definition ret {S A : Type} (a : A) : M S A := fun w => Some (a, w).

Definition raise {S A : Type} : M S A := fun _ => None.

Definition bind {S A C : Type} (c : M S A) (k : A -> M S C) : M S C :=
  fun w =>
    match c w with
    | None => None
    | Some (a, w') => k a w'
    end.

Notation "x <- c ;; k" := (bind c (fun x => k))
  (at level 61, c at next level, right associativity).
Notation "c ;;; k" := (bind c (fun _ => k))
  (at level 61, right associativity).

Section Program.

Context {B : Backend}.

(** The mutable objects the notebook's cells share: the values of all
    variables, the two optimizers and the random generator. *)
Record world : Type := mk_world {
  variables : var -> tensor;
  optimizer : optimizer_name -> Adam;
  rng : seed
}.

Definition assign (v : var) (t : tensor) : M world unit :=
  fun w =>
    Some (tt, mk_world (fun v' => if v' =? v then t else variables w v')
                (optimizer w) (rng w)).

(** The world as it is now: what a gradient tape sees when its block is
    entered. *)
Definition get_world : M world world := fun w => Some (w, w).

Definition read (vs : list var) : M world (list tensor) :=
  fun w => Some (map (variables w) vs, w).

Fixpoint assign_all (vts : list (var * tensor)) : M world unit :=
  match vts with
  | [] => ret tt
  | (v, t) :: vts' => assign v t ;;; assign_all vts'
  end.

(** A computation that leaves the whole world alone. *)
Definition silent {A : Type} (c : M world A) : Prop :=
  forall w a w', c w = Some (a, w') -> w' = w.

(** What a computation may write: the variables of [vs] and the state of
    the optimizer [name], nothing else. *)
Definition writes_only (name : optimizer_name) (vs : list var)
    (w w' : world) : Prop :=
  (forall u, ~ In u vs -> variables w' u = variables w u)
  /\ (forall n, n <> name -> optimizer w' n = optimizer w n)
  /\ rng w' = rng w.

Definition tabulate (n : N) (f : nat -> R) : list R :=
  map f (seq 0 (N.to_nat n)).

(** [tf.random.normal(s)] *)
Definition random_normal (s : list N) : M world tensor :=
  fun w =>
    Some (mk_ndarray s (tabulate (size s) (normal (rng w))),
          mk_world (variables w) (optimizer w) (advance (rng w))).

(** ** Calling a model *)

Definition shape_eqb (s t : list N) : bool :=
  (length s =? length t)%nat
  && forallb (fun p => (fst p =? snd p)%N) (combine s t).

Definition shapes_eqb (ss ts : list (list N)) : bool :=
  (length ss =? length ts)%nat
  && forallb (fun p => shape_eqb (fst p) (snd p)) (combine ss ts).

(** A built layer accepts samples of shape [s] when the variables it was
    built with are the ones it would create for [s]. *)
Definition accepts (l : built_layer) (s : list N) : bool :=
  shapes_eqb (fst (weight_shapes (config l) s))
             (fst (weight_shapes (config l) (input_shape l)))
  && shapes_eqb (snd (weight_shapes (config l) s))
                (snd (weight_shapes (config l) (input_shape l))).

Definition apply_activation (a : activation) (x : R) : R :=
  match a with
  | linear => x
  | tanh_act => tanh x
  end.

Definition activation_of (l : layer) : activation :=
  match l with
  | Conv2DTranspose _ _ _ _ _ act => act
  | _ => linear
  end.

(** [LeakyReLU()], with Keras' default slope 0.3 on the negative side. *)
Definition leaky_relu (x : R) : R :=
  if Rle_dec 0 x then x else (3/10 * x)%R.

(** Entry [k] of a dropout in training mode: dropped when the uniform draw is
    below the rate, scaled up otherwise. *)
Definition dropout_entry (rate : R) (g : seed) (k : nat) (x : R) : R :=
  if Rle_dec rate (uniform g k) then (x * (1 / (1 - rate)))%R else 0%R.

(** [Dropout(rate)]: the identity at inference; in training a fresh mask. *)
Definition dropout (rate : R) (training : bool) (x : list R)
    : M world (list R) :=
  if training then
    fun w =>
      Some (map (fun p => dropout_entry rate (rng w) (fst p) (snd p))
              (combine (seq 0 (length x)) x),
            mk_world (variables w) (optimizer w) (advance (rng w)))
  else ret x.

(** [BatchNormalization()]: in training the moving statistics are
    reassigned; at inference nothing is written. *)
Definition update_moving_statistics (l : built_layer) (training : bool)
    (x : tensor) : M world unit :=
  if training then
    moving <- read (non_trainable_weights l) ;;
    assign_all (combine (non_trainable_weights l)
                  (moving_statistics moving x))
  else ret tt.

Definition call_layer (l : built_layer) (training : bool) (x : tensor)
    : M world tensor :=
  match shape x with
  | [] => raise
  | n :: s =>
      if accepts l s then
        match compute_output_shape (config l) s with
        | None => raise
        | Some s' =>
            let out := n :: s' in
            match config l with
            | LeakyReLU => ret (mk_ndarray out (map leaky_relu (data x)))
            | Reshape _ => ret (mk_ndarray out (data x))
            | Flatten =>
                (* reshaped to [n, -1]: the library cannot infer the second
                   length of an empty batch *)
                if (n =? 0)%N then raise else ret (mk_ndarray out (data x))
            | Dropout rate =>
                y <- dropout rate training (data x) ;;
                ret (mk_ndarray out y)
            | BatchNormalization =>
                ws <- read (trainable_weights l ++ non_trainable_weights l) ;;
                update_moving_statistics l training x ;;;
                ret (mk_ndarray out
                       (tabulate (size out)
                          (kernel (config l) training ws x)))
            | Dense _ _ | Conv2D _ _ _ _ | Conv2DTranspose _ _ _ _ _ _ =>
                ws <- read (trainable_weights l ++ non_trainable_weights l) ;;
                ret (mk_ndarray out
                       (map (apply_activation (activation_of (config l)))
                          (tabulate (size out)
                             (kernel (config l) training ws x))))
            end
        end
      else raise
  end.

Fixpoint call_layers (ls : list built_layer) (training : bool) (x : tensor)
    : M world tensor :=
  match ls with
  | [] => ret x
  | l :: ls' => y <- call_layer l training x ;; call_layers ls' training y
  end.

(** [m(x, training=...)]: the samples must have the shape the model was
    declared with ([input_shape=...] of its first layer). *)
Definition call (m : Sequential) (x : tensor) (training : bool)
    : M world tensor :=
  match shape x with
  | [] => raise
  | _ :: s =>
      if shape_eqb s (model_input_shape m)
      then call_layers (layers m) training x
      else raise
  end.


(** ** Losses *)

Definition ones_like (t : tensor) : tensor :=
  mk_ndarray (shape t) (map (fun _ => 1%R) (data t)).

Definition zeros_like (t : tensor) : tensor :=
  mk_ndarray (shape t) (map (fun _ => 0%R) (data t)).

(** Binary cross-entropy of one logit [x] against one target [z], in the
    form the library evaluates it when [from_logits=True]: the sigmoid is
    folded into the loss. *)
Definition sigmoid_cross_entropy_with_logits (z x : R) : R :=
  (Rmax x 0 - x * z + ln (1 + exp (- Rabs x)))%R.

Definition reduce_sum (l : list R) : R := fold_right Rplus 0%R l.

(** The mean of the entries, and 0 for no entry. *)
Definition reduce_mean (l : list R) : R :=
  if length l =? 0 then 0%R else (reduce_sum l / INR (length l))%R.

(** [cross_entropy = BinaryCrossentropy(from_logits=True)], called as
    [cross_entropy(y_true, y_pred)]: the mean of the entrywise losses (for
    the score arrays of the notebook, one entry per sample). *)
Definition cross_entropy (y_true y_pred : tensor) : R :=
  reduce_mean
    (map (fun p => sigmoid_cross_entropy_with_logits (fst p) (snd p))
       (combine (data y_true) (data y_pred))).

(** ** Optimizers *)

Definition beta_1 : R := (9 / 10)%R.
Definition beta_2 : R := (999 / 1000)%R.
Definition epsilon : R := (1 / 10 ^ 7)%R.

(** [tf.keras.optimizers.Adam(lr)] before its first step. *)
Definition new_Adam (lr : R) : Adam :=
  mk_Adam lr 0 (fun _ => None) (fun _ => None).

Definition map2 {A C D : Type} (f : A -> C -> D) (l : list A) (l' : list C)
    : list D :=
  map (fun p => f (fst p) (snd p)) (combine l l').

(** A moment estimate starts at zero the first time its variable is seen. *)
Definition slot_value (slot : var -> option (list R)) (v : var) (x : tensor)
    : list R :=
  match slot v with
  | Some m => m
  | None => map (fun _ => 0%R) (data x)
  end.

(** One Adam update of the variable [v] with the gradient [g], by the
    optimizer called [name]: only [v] and the optimizer's own two estimates
    for [v] are written. *)
Definition adam_update (name : optimizer_name) (g : tensor) (v : var)
    : M world unit :=
  fun w =>
    let o := optimizer w name in
    let x := variables w v in
    let t := S (iterations o) in
    let lr_t :=
      (learning_rate o * sqrt (1 - beta_2 ^ t) / (1 - beta_1 ^ t))%R in
    let m' :=
      map2 (fun m gk => (beta_1 * m + (1 - beta_1) * gk)%R)
           (slot_value (slot_m o) v x) (data g) in
    let v' :=
      map2 (fun vk gk => (beta_2 * vk + (1 - beta_2) * (gk * gk))%R)
           (slot_value (slot_v o) v x) (data g) in
    let x' :=
      map2 (fun xk mv => (xk - lr_t * fst mv / (sqrt (snd mv) + epsilon))%R)
           (data x) (combine m' v') in
    let o' :=
      mk_Adam (learning_rate o) (iterations o)
        (fun u => if u =? v then Some m' else slot_m o u)
        (fun u => if u =? v then Some v' else slot_v o u) in
    Some (tt,
          mk_world
            (fun u => if u =? v then mk_ndarray (shape x) x'
                      else variables w u)
            (fun n =>
               match n, name with
               | generator_optimizer, generator_optimizer => o'
               | discriminator_optimizer, discriminator_optimizer => o'
               | _, _ => optimizer w n
               end)
            (rng w)).

Fixpoint adam_updates (name : optimizer_name)
    (grads_and_vars : list (tensor * var)) : M world unit :=
  match grads_and_vars with
  | [] => ret tt
  | (g, v) :: rest => adam_update name g v ;;; adam_updates name rest
  end.

Definition count_step (name : optimizer_name) : M world unit :=
  fun w =>
    let o := optimizer w name in
    let o' := mk_Adam (learning_rate o) (S (iterations o))
                (slot_m o) (slot_v o) in
    Some (tt,
          mk_world (variables w)
            (fun n =>
               match n, name with
               | generator_optimizer, generator_optimizer => o'
               | discriminator_optimizer, discriminator_optimizer => o'
               | _, _ => optimizer w n
               end)
            (rng w)).

(** [name.apply_gradients(grads_and_vars)]; with no gradient at all no
    step is taken. *)
Definition apply_gradients (name : optimizer_name)
    (grads_and_vars : list (tensor * var)) : M world unit :=
  match grads_and_vars with
  | [] => if empty_gradients_raise then raise else ret tt
  | _ :: _ => adam_updates name grads_and_vars ;;; count_step name
  end.

(** ** float32 arithmetic *)

(** The library holds an entry as a float32 number and rounds the exact
    result of an arithmetic operation to the nearest one, a tie going to
    the even mantissa.  Overflow to infinity is outside the model. *)

(** The least exponent [e' >= e] with [|x| < 2^e'], looking [fuel]
    exponents up. *)
Fixpoint exponent_from (fuel : nat) (e : Z) (x : R) : Z :=
  match fuel with
  | 0 => e
  | S fuel' =>
      if Rlt_dec (Rabs x) (powerRZ 2 e) then e
      else exponent_from fuel' (e + 1) x
  end.

(** The exponent of the binade of [x]: the least [e >= -125] with
    [|x| < 2^e], at most 128.  Below [2^-125] lie the least normal binade
    and the subnormal numbers, on one grid. *)
Definition exponent (x : R) : Z := exponent_from 253 (-125) x.

(** The nearest integer, the even one of two nearest. *)
Definition round_half_even (y : R) : Z :=
  let k := Int_part y in
  let r := (y - IZR k)%R in
  if Rlt_dec r (1 / 2) then k
  else if Rlt_dec (1 / 2) r then (k + 1)%Z
  else if Z.even k then k else (k + 1)%Z.

(** [x] rounded to float32: 24 bits of mantissa. *)
Definition float32 (x : R) : R :=
  let u := powerRZ 2 (exponent x - 24) in
  (IZR (round_half_even (x / u)) * u)%R.

(** ** Images, PNG streams and the archive *)

(** [t + c], [t / c] and [t * c] on every entry. *)
Definition add_scalar (t : tensor) (c : R) : tensor :=
  mk_ndarray (shape t) (map (fun x => float32 (x + c)) (data t)).

Definition div_scalar (t : tensor) (c : R) : tensor :=
  mk_ndarray (shape t) (map (fun x => float32 (x / c)) (data t)).

Definition mul_scalar (t : tensor) (c : R) : tensor :=
  mk_ndarray (shape t) (map (fun x => float32 (x * c)) (data t)).

(** The integer part of [x], towards zero. *)
Definition Rtrunc (x : R) : Z :=
  if Rle_dec 0 x then Int_part x else (- Int_part (- x))%Z.

(** Conversion of one entry to an unsigned byte: the fractional part is
    dropped; the wrap-around stands for what the conversion does outside
    [[0, 256)]. *)
Definition uint8_of_float (x : R) : Z := (Rtrunc x mod 256)%Z.

(** [a.astype(np.uint8)] *)
Definition astype_uint8 (t : tensor) : ndarray Z :=
  mk_ndarray (shape t) (map uint8_of_float (data t)).

(** [a[j]]: the [j]-th slice along the first axis; raises past its end. *)
Definition getitem {A : Type} (a : ndarray A) (j : nat)
    : option (ndarray A) :=
  match shape a with
  | [] => None
  | n :: s =>
      if (N.of_nat j <? n)%N
      then Some (mk_ndarray s
                   (firstn (N.to_nat (size s))
                      (skipn (j * N.to_nat (size s)) (data a))))
      else None
  end.

Inductive mode : Type := L | LA | RGB | RGBA.

Definition bands (m : mode) : N :=
  match m with
  | L => 1
  | LA => 2
  | RGB => 3
  | RGBA => 4
  end%N.

Record Image : Type := mk_Image {
  image_mode : mode;
  width : N;
  height : N;
  pixels : list Z
}.

(** [Image.fromarray(a)] on an array of unsigned bytes: rows, columns and
    optionally 2, 3 or 4 channels; an array of one axis is one column of
    grey pixels; other arrays are refused. *)
Definition fromarray (a : ndarray Z) : option Image :=
  match shape a with
  | [h] => Some (mk_Image L 1 h (data a))
  | [h; w] => Some (mk_Image L w h (data a))
  | [h; w; c] =>
      match c with
      | 2 => Some (mk_Image LA w h (data a))
      | 3 => Some (mk_Image RGB w h (data a))
      | 4 => Some (mk_Image RGBA w h (data a))
      | _ => None
      end%N
  | _ => None
  end.

(** The bytes [img.save(buffer, format='PNG')] leaves in the buffer.  PNG is
    lossless, so the stream is named by the image it decodes to. *)
Inductive file_bytes : Type := PNG (img : Image).

Definition decode (b : file_bytes) : Image :=
  match b with PNG img => img end.

(** [img.save(buffer, format='PNG')] followed by [buffer.getvalue()]; an
    image without rows or without columns cannot be encoded. *)
Definition save (img : Image) : option file_bytes :=
  if ((width img =? 0) || (height img =? 0))%N then None else Some (PNG img).

(** A PNG stream is well formed when it holds one byte per band of each
    pixel of the size its header announces. *)
Definition valid_png (b : file_bytes) : Prop :=
  N.of_nat (length (pixels (decode b)))
    = (height (decode b) * width (decode b)
       * bands (image_mode (decode b)))%N
  /\ Forall (fun p => (0 <= p < 256)%Z) (pixels (decode b)).

(** An array that holds as many entries as its shape announces. *)
Definition well_formed {A : Type} (a : ndarray A) : Prop :=
  length (data a) = N.to_nat (size (shape a)).

(** What the cell writes for each image: an RGB picture of [h] rows and [w]
    columns in a well-formed PNG stream. *)
Definition rgb_entry (h w : N) (e : string * file_bytes) : Prop :=
  image_mode (decode (snd e)) = RGB
  /\ height (decode (snd e)) = h
  /\ width (decode (snd e)) = w
  /\ valid_png (snd e).

(** An open [zipfile.ZipFile]: its entries in the order of writing. *)
Definition ZipFile : Type := list (string * file_bytes).

Definition writestr (z : ZipFile) (name : string) (b : file_bytes) : ZipFile :=
  z ++ [(name, b)].

(** [str(n)] for a natural number: its decimal digits. *)
Definition str (n : nat) : string := NilEmpty.string_of_uint (Nat.to_uint n).

(** [range(start, stop, step)] for a non-negative step; a zero step
    raises. *)
Definition range (start stop step : nat) : option (list nat) :=
  if step =? 0 then None
  else Some (map (fun k => start + k * step)
               (seq 0 ((stop - start + step - 1) / step))).

Definition lift {S A : Type} (o : option A) : M S A :=
  fun w =>
    match o with
    | None => None
    | Some a => Some (a, w)
    end.

(** The inner loop [for j in range(batch_size)] of one round. *)
Fixpoint write_batch (generated_images : ndarray Z) (i : nat)
    (js : list nat) (img_zip : ZipFile) : option ZipFile :=
  match js with
  | [] => Some img_zip
  | j :: js' =>
      match getitem generated_images j with
      | None => None
      | Some a =>
          match fromarray a with
          | None => None
          | Some img =>
              match save img with
              | None => None
              | Some img_byte_arr =>
                  let img_name := (str (i + j) ++ ".png")%string in
                  write_batch generated_images i js'
                    (writestr img_zip img_name img_byte_arr)
              end
          end
      end
  end.

(** ** The training step *)

Section Cells.

Variables generator discriminator : Sequential.

(** The body of the [with tf.GradientTape() ...] block: the three forward
    passes in training mode and the two losses. *)
Definition forward (images noise : tensor) : M world (R * R) :=
  generated_images <- call generator noise true ;;
  real_output <- call discriminator images true ;;
  fake_output <- call discriminator generated_images true ;;
  let gen_loss := cross_entropy (ones_like fake_output) fake_output in
  let disc_loss :=
    (cross_entropy (ones_like real_output) real_output
     + cross_entropy (zeros_like fake_output) fake_output)%R in
  ret (gen_loss, disc_loss).

(** What a tape recorded: the chosen loss of the block as a function of the
    variable values, everything else of the world [w] being as it was when
    the block was entered. *)
Definition recorded (w : world) (images noise : tensor) (loss : R * R -> R)
    (sigma : var -> tensor) : R :=
  match forward images noise (mk_world sigma (optimizer w) (rng w)) with
  | Some (l, _) => loss l
  | None => 0%R
  end.

(** [tape.gradient(loss, sources)] for a tape entered in the world [w]. *)
Definition tape_gradient (w : world) (images noise : tensor)
    (loss : R * R -> R) (sources : list var) : list tensor :=
  map (gradient (recorded w images noise loss) (variables w)) sources.

(** The forward passes of one step from the world [w]: the noise it draws,
    and the scores the discriminator gives to the real images and to the
    images generated from that noise. *)
Definition forward_passes (images : tensor) (w : world)
    (noise real_output fake_output : tensor) : Prop :=
  exists n s w0 generated_images w1 w2 w3,
    shape images = n :: s
    /\ random_normal [n; noise_dim] w = Some (noise, w0)
    /\ call generator noise true w0 = Some (generated_images, w1)
    /\ call discriminator images true w1 = Some (real_output, w2)
    /\ call discriminator generated_images true w2 = Some (fake_output, w3).

Definition train_step (images : tensor) : M world (R * R) :=
  match shape images with
  | [] => raise
  | n :: _ =>
      noise <- random_normal [n; noise_dim] ;;
      tape <- get_world ;;
      losses <- forward images noise ;;
      let gradients_of_generator :=
        tape_gradient tape images noise fst (trainable_variables generator) in
      let gradients_of_discriminator :=
        tape_gradient tape images noise snd
          (trainable_variables discriminator) in
      apply_gradients generator_optimizer
        (combine gradients_of_generator (trainable_variables generator)) ;;;
      apply_gradients discriminator_optimizer
        (combine gradients_of_discriminator
           (trainable_variables discriminator)) ;;;
      ret losses
  end.

(** ** The submission loop *)

(** The rescaling of one generated entry, [(p + 1) / 2.0 * 255] in float32
    arithmetic, and its conversion to a byte. *)
Definition rescale (p : R) : R :=
  float32 (float32 (float32 (p + 1) / 2) * 255).

Definition quantize (p : R) : Z := uint8_of_float (rescale p).

(** The rounds of [for i in range(0, num_images_to_generate, batch_size)]
    that remain, writing into the open archive [img_zip]. *)
Fixpoint rounds (batch_size : nat) (starts : list nat) (img_zip : ZipFile)
    : M world ZipFile :=
  match starts with
  | [] => ret img_zip
  | i :: starts' =>
      noise <- random_normal [N.of_nat batch_size; noise_dim] ;;
      generated_images <- call generator noise false ;;
      let generated_images := div_scalar (add_scalar generated_images 1) 2 in
      let generated_images := mul_scalar generated_images 255 in
      let generated_images := astype_uint8 generated_images in
      img_zip' <- lift (write_batch generated_images i (seq 0 batch_size)
                          img_zip) ;;
      rounds batch_size starts' img_zip'
  end.

(** The cell that creates [images.zip]; the result is the closed archive. *)
Definition package (num_images_to_generate batch_size : nat)
    : M world ZipFile :=
  starts <- lift (range 0 num_images_to_generate batch_size) ;;
  rounds batch_size starts [].

(** The training step of the specification's update-order test: as
    [train_step], with the two optimizer applications in the other order. *)
Definition train_step_swapped (images : tensor) : M world (R * R) :=
  match shape images with
  | [] => raise
  | n :: _ =>
      noise <- random_normal [n; noise_dim] ;;
      tape <- get_world ;;
      losses <- forward images noise ;;
      let gradients_of_generator :=
        tape_gradient tape images noise fst (trainable_variables generator) in
      let gradients_of_discriminator :=
        tape_gradient tape images noise snd
          (trainable_variables discriminator) in
      apply_gradients discriminator_optimizer
        (combine gradients_of_discriminator
           (trainable_variables discriminator)) ;;;
      apply_gradients generator_optimizer
        (combine gradients_of_generator (trainable_variables generator)) ;;;
      ret losses
  end.

End Cells.

End Program.

(** ** The notebook's objects *)

(** [generator = make_generator_model()], the first model the notebook
    creates. *)
Definition generator : Sequential :=
  match make_generator_model 0 with
  | Some (m, _) => m
  | None => mk_Sequential [] []
  end.

(** [discriminator = make_discriminator_model()], created after the
    generator's variables. *)
Definition discriminator : Sequential :=
  match make_generator_model 0 with
  | Some (_, next) =>
      match make_discriminator_model next with
      | Some (m, _) => m
      | None => mk_Sequential [] []
      end
  | None => mk_Sequential [] []
  end.

Definition num_images_to_generate : nat := 10000.

Definition batch_size : nat := 100.

(** ** Shapes through a built model *)

Definition is_flatten (l : layer) : bool :=
  match l with
  | Flatten => true
  | _ => false
  end.

(** The shape of one output sample when the layers are run on [n] samples of
    shape [s], and whether every layer accepts what reaches it. *)
Fixpoint call_shape (n : N) (ls : list built_layer) (s : list N)
    : option (list N) :=
  match ls with
  | [] => Some s
  | l :: ls' =>
      if accepts l s && negb (is_flatten (config l) && (n =? 0)%N) then
        match compute_output_shape (config l) s with
        | Some s' => call_shape n ls' s'
        | None => None
        end
      else None
  end.

(** The same for a call of the model: the samples must have the declared
    shape. *)
Definition model_call_shape (n : N) (m : Sequential) (s : list N)
    : option (list N) :=
  if shape_eqb s (model_input_shape m) then call_shape n (layers m) s
  else None.

(** Whether [apply_gradients] returns on the gradients of the variables
    [vs]: only the empty list can make it raise. *)
Definition applies {B : Backend} (vs : list var) : bool :=
  match vs with
  | [] => negb empty_gradients_raise
  | _ :: _ => true
  end.

(** Number of rounds of the submission loop. *)
Definition ceil_div (total batch : nat) : nat := (total + batch - 1) / batch.

Definition img_name (k : nat) : string := (str k ++ ".png")%string.

(** The textbook binary cross-entropy of the probability [sigmoid x] against
    the target [z]. *)
Definition sigmoid (x : R) : R := (1 / (1 + exp (- x)))%R.

Definition binary_cross_entropy (z p : R) : R :=
  (- (z * ln p + (1 - z) * ln (1 - p)))%R.

(** ** A small pair of models that fit each other *)

(** A backend whose draws, kernel entries and derivatives are all zero. *)
Definition zero_backend : Backend :=
  {| seed := nat;
     advance := S;
     normal := fun _ _ => 0%R;
     uniform := fun _ _ => 0%R;
     kernel := fun _ _ _ _ _ => 0%R;
     moving_statistics := fun moving _ => moving;
     gradient := fun _ sigma v => zeros_like (sigma v);
     empty_gradients_raise := false |}.

(** The generator's stack cut down to 2 by 2 images. *)
Definition small_generator : Sequential :=
  match build 0 [100]%N
          [ Dense (2*2*3) false;
            BatchNormalization;
            LeakyReLU;
            Reshape [2; 2; 3]%N;
            Conv2DTranspose 3 (5,5)%N (1,1)%N same false tanh_act ] with
  | Some (m, _) => m
  | None => mk_Sequential [] []
  end.

(** The discriminator's stack built for 2 by 2 images. *)
Definition small_discriminator : Sequential :=
  match build 6 [2; 2; 3]%N
          [ Conv2D 4 (5,5)%N (2,2)%N same;
            LeakyReLU;
            Dropout (3/10)%R;
            Flatten;
            Dense 1 true ] with
  | Some (m, _) => m
  | None => mk_Sequential [] []
  end.

(** Two black 2 by 2 images. *)
Definition small_images : tensor :=
  mk_ndarray [2; 2; 2; 3]%N (repeat 0%R 24).

(** The world before the first step: no variable holds an entry yet, and
    both optimizers are [Adam(1e-4)]. *)
Definition start_world : @world zero_backend :=
  @mk_world zero_backend (fun _ => mk_ndarray [] [])
    (fun _ => new_Adam (1e-4)%R) 0%nat.

(** ** A run that shows the float32 rounding *)





(** ** Reading the paintings *)

Definition bytes : Type := list Byte.byte.

(** The image operations the data cell takes from the tensor library: the
    decoder behind [tf.image.decode_jpeg] and the interpolation of
    [tf.image.resize]. *)
Class Codec : Type := {
  (** rows, columns and byte [k] of the picture [tf.image.decode_jpeg]
      reads from a stream with three channels; the stream may be a JPEG, a
      PNG or a still GIF; nothing when the op raises *)
  decoded_picture : bytes -> option (N * N * (nat -> Byte.byte));
  (** entry [k] of an image resized to the given rows and columns *)
  resize_entry : ndarray Z -> N * N -> nat -> R
}.

Section Data.

Context {C : Codec}.

(** [tf.image.decode_jpeg(contents, channels=3)] *)
Definition decode_jpeg (contents : bytes) : option (ndarray Z) :=
  match decoded_picture contents with
  | None => None
  | Some (h, w, f) =>
      Some (mk_ndarray [h; w; 3%N]
              (map (fun k => Z.of_N (Byte.to_N (f k)))
                 (seq 0 (N.to_nat (h * w * 3)))))
  end.

(** [tf.image.resize(image, size)] on one image or on a batch of images. *)
Definition resize (image : ndarray Z) (new_size : N * N) : option tensor :=
  match shape image with
  | [_; _; c] =>
      let out := [fst new_size; snd new_size; c] in
      Some (mk_ndarray out (tabulate (size out) (resize_entry image new_size)))
  | [b; _; _; c] =>
      let out := [b; fst new_size; snd new_size; c] in
      Some (mk_ndarray out (tabulate (size out) (resize_entry image new_size)))
  | _ => None
  end.

Definition sub_scalar (t : tensor) (c : R) : tensor :=
  mk_ndarray (shape t) (map (fun x => float32 (x - c)) (data t)).

Definition decode_image (image : bytes) : option tensor :=
  match decode_jpeg image with
  | None => None
  | Some image =>
      match resize image (64, 64)%N with
      | None => None
      | Some image => Some (sub_scalar (div_scalar image 127.5) 1)
      end
  end.

(** The features of one record of a TFRecord file. *)
Inductive feature : Type :=
| BytesList (value : list bytes)
| FloatList (value : list R)
| Int64List (value : list Z).

Definition Example : Type := list (string * feature).

Fixpoint get_feature (key : string) (example : Example) : option feature :=
  match example with
  | [] => None
  | (k, f) :: rest => if String.eqb k key then Some f else get_feature key rest
  end.

(** [tf.io.FixedLenFeature([], tf.string)] for the feature [key]: the record
    must hold exactly one byte string under that name. *)
Definition fixed_len_string (key : string) (example : Example)
    : option bytes :=
  match get_feature key example with
  | Some (BytesList [b]) => Some b
  | _ => None
  end.

(** [tf.io.parse_single_example(example, format)] for a format whose
    features are all [FixedLenFeature([], tf.string)]: the dictionary of the
    requested features, or nothing when one of them cannot be read. *)
Fixpoint parse_single_example (example : Example) (format : list string)
    : option (list (string * bytes)) :=
  match format with
  | [] => Some []
  | key :: format' =>
      match fixed_len_string key example with
      | None => None
      | Some b =>
          match parse_single_example example format' with
          | None => None
          | Some d => Some ((key, b) :: d)
          end
      end
  end.

Definition tfrecord_format : list string := ["image"; "id"]%string.

(** [d[key]] on a dictionary. *)
Fixpoint getitem_dict (d : list (string * bytes)) (key : string)
    : option bytes :=
  match d with
  | [] => None
  | (k, b) :: rest => if String.eqb k key then Some b else getitem_dict rest key
  end.

Definition read_tfrecord (example : Example) : option tensor :=
  match parse_single_example example tfrecord_format with
  | None => None
  | Some example =>
      match getitem_dict example "image" with
      | None => None
      | Some image => decode_image image
      end
  end.

(** A dataset: what each element gives when it is pulled, in order; [None]
    is an element whose computation raises. *)
Definition dataset (A : Type) : Type := list (option A).

Definition ds_map {A E : Type} (f : A -> option E) (ds : dataset A)
    : dataset E :=
  map (fun o => match o with Some a => f a | None => None end) ds.

(** Consecutive groups of [n] elements, the last one shorter when the
    elements run out; [fuel] bounds the number of groups. *)
Fixpoint chunks {A : Type} (fuel n : nat) (l : list A) : list (list A) :=
  match fuel with
  | 0 => []
  | S fuel' =>
      match l with
      | [] => []
      | _ => firstn n l :: chunks fuel' n (skipn n l)
      end
  end.

Fixpoint sequence {A : Type} (l : list (option A)) : option (list A) :=
  match l with
  | [] => Some []
  | None :: _ => None
  | Some a :: l' =>
      match sequence l' with
      | None => None
      | Some r => Some (a :: r)
      end
  end.

(** The elements of one batch stacked along a new first axis; they must
    have one shape. *)
Definition stack (ts : list tensor) : option tensor :=
  match ts with
  | [] => None
  | t :: _ =>
      if forallb (fun u => shape_eqb (shape u) (shape t)) ts
      then Some (mk_ndarray (N.of_nat (length ts) :: shape t)
                   (concat (map (fun u => data u) ts)))
      else None
  end.

(** Pulling one batch: pulling any of its elements may raise, then the
    elements are stacked. *)
Definition batch_of (group : list (option tensor)) : option tensor :=
  match sequence group with
  | None => None
  | Some ts => stack ts
  end.

(** [ds.batch(n)]: pulling a batch pulls its elements. *)
Definition ds_batch (n : nat) (ds : dataset tensor) : dataset tensor :=
  map batch_of (chunks (length ds) n ds).

Definition ds_take {A : Type} (n : nat) (ds : dataset A) : dataset A :=
  firstn n ds.

(** [monet_ds], from the records of the files in reading order. *)
Definition monet_ds (records : list Example) : dataset tensor :=
  ds_batch 8 (ds_map read_tfrecord (map Some records)).

(** The inner loop of the plotting cell on one batch: the position of each
    subplot and the image shown there. *)
Fixpoint show_images (images : tensor) (indices : list nat)
    : option (list (nat * tensor)) :=
  match indices with
  | [] => Some []
  | i :: indices' =>
      match getitem images i with
      | None => None
      | Some x =>
          let img := div_scalar (add_scalar x 1) 2 in
          match show_images images indices' with
          | None => None
          | Some shown => Some ((i + 1, img) :: shown)
          end
      end
  end.

(** The plotting cell: what it shows, batch after batch of [ds]. *)
Fixpoint show_batches (ds : dataset tensor)
    : option (list (nat * tensor)) :=
  match ds with
  | [] => Some []
  | None :: _ => None
  | Some images :: ds' =>
      match show_images images (seq 0 8) with
      | None => None
      | Some shown =>
          match show_batches ds' with
          | None => None
          | Some rest => Some (shown ++ rest)
          end
      end
  end.

Definition show_samples (records : list Example)
    : option (list (nat * tensor)) :=
  show_batches (ds_take 1 (monet_ds records)).

End Data.

(** All variables of a model. *)
Definition model_variables (m : Sequential) : list var :=
  trainable_variables m ++ non_trainable_variables m.

(** A computation that writes at most the variables of [vs]: the
    optimizers stay as they are. *)
Definition writes_variables {B : Backend} (vs : list var) (w w' : world)
    : Prop :=
  (forall v, ~ In v vs -> variables w' v = variables w v)
  /\ optimizer w' = optimizer w.

(** The world a computation leaves behind. *)
Definition after {B : Backend} {A : Type} (c : M world A) (w : world)
    : world :=
  match c w with
  | Some (_, w') => w'
  | None => w
  end.

(** The cell that creates [images.zip], with the line it prints at the
    end. *)
Definition package_cell {B : Backend} (generator : Sequential)
    (num_images_to_generate batch_size : nat)
    : M world (ZipFile * string) :=
  img_zip <- package generator num_images_to_generate batch_size ;;
  ret (img_zip,
       ("Successfully created images.zip with "
        ++ str num_images_to_generate ++ " images.")%string).

(** A codec for running the data cell on paper: every stream is a black
    picture of one pixel, and resizing gives black. *)
Definition black_codec : Codec :=
  {| decoded_picture := fun _ => Some (1%N, 1%N, fun _ => Byte.x00);
     resize_entry := fun _ _ _ => 0%R |}.

(** A record as the Monet files hold them. *)
Definition sample_record : Example :=
  [("image", BytesList [[]]); ("id", BytesList [[]])]%string.

(** Two black 64 by 64 images, and one row of noise. *)
Definition black_images : tensor :=
  mk_ndarray [2; 64; 64; 3]%N (repeat 0%R (N.to_nat 24576)).

Definition zero_noise : tensor :=
  mk_ndarray [1; noise_dim]%N (repeat 0%R 100).

(** * Properties *)

(** ** The state monad *)

Lemma bind_Some (S A C : Type) (c : M S A) (k : A -> M S C) (w : S)
    (r : C) (w' : S) :
  bind c k w = Some (r, w') <->
  exists a w1, c w = Some (a, w1) /\ k a w1 = Some (r, w').
Proof.
  unfold bind. split.
  - destruct (c w) as [[a w1]|]; [|discriminate].
    intros H. exists a, w1. split; [reflexivity|exact H].
  - intros (a & w1 & Hc & Hk). rewrite Hc. exact Hk.
Qed.

Lemma bind_None_l (S A C : Type) (c : M S A) (k : A -> M S C) (w : S) :
  c w = None -> bind c k w = None.
Proof. unfold bind. intros ->. reflexivity. Qed.

Lemma lift_Some (S A : Type) (o : option A) (w : S) (a : A) (w' : S) :
  lift o w = Some (a, w') <-> o = Some a /\ w' = w.
Proof.
  unfold lift. destruct o as [a0|]; split.
  - intros H. inversion H. split; reflexivity.
  - intros [H ->]. inversion H. reflexivity.
  - discriminate.
  - intros [H _]. discriminate.
Qed.

(** [bind_inv H as a w1 Ha]: from [H : bind c k w = Some _], the result [a]
    and the world [w1] of [c], with [Ha : c w = Some (a, w1)]; [H] becomes the
    equation of the continuation. *)
Tactic Notation "bind_inv" hyp(H) "as" simple_intropattern(a)
    simple_intropattern(w1) simple_intropattern(Ha) :=
  apply bind_Some in H; destruct H as (a & w1 & Ha & H).

(** ** Calls: shapes, failure and what is written *)

Section CallFacts.

Context {B : Backend}.

Lemma silent_ret (A : Type) (a : A) : silent (ret a).
Proof. intros w a' w' H. inversion H. reflexivity. Qed.

Lemma silent_bind (A C : Type) (c : M world A) (k : A -> M world C) :
  silent c -> (forall a, silent (k a)) -> silent (bind c k).
Proof.
  intros Hc Hk w r w' H. apply bind_Some in H.
  destruct H as (a & w1 & H1 & H2).
  apply Hc in H1. subst w1. exact (Hk a _ _ _ H2).
Qed.

Lemma silent_read (vs : list var) : silent (read vs).
Proof. intros w a w' H. inversion H. reflexivity. Qed.

Lemma silent_raise (A : Type) : silent (@raise world A).
Proof. intros w a w' H. discriminate. Qed.

(** At inference a layer writes nothing: no moving statistic, no draw from
    the random generator. *)
Lemma call_layer_inference_silent (l : built_layer) (x : tensor) :
  silent (call_layer l false x).
Proof.
  unfold call_layer.
  destruct (shape x) as [|n s]; [apply silent_raise|].
  destruct (accepts l s); [|apply silent_raise].
  destruct (compute_output_shape (config l) s) as [s'|]; [|apply silent_raise].
  destruct (config l); simpl; try destruct (n =? 0)%N;
    repeat first [ apply silent_ret | apply silent_read | apply silent_raise
                 | apply silent_bind; [|intros ?] ].
Qed.

Lemma call_layers_inference_silent (ls : list built_layer) (x : tensor) :
  silent (call_layers ls false x).
Proof.
  revert x. induction ls as [|l ls IH]; intros x; simpl.
  - apply silent_ret.
  - apply silent_bind; [apply call_layer_inference_silent|].
    intros y. apply IH.
Qed.

Lemma call_inference_silent (m : Sequential) (x : tensor) :
  silent (call m x false).
Proof.
  unfold call. destruct (shape x) as [|n s]; [apply silent_raise|].
  destruct (shape_eqb s (model_input_shape m)); [|apply silent_raise].
  apply call_layers_inference_silent.
Qed.

Lemma assign_all_returns (vts : list (var * tensor)) (w : world) :
  exists w', assign_all vts w = Some (tt, w').
Proof.
  revert w. induction vts as [|[v t] vts IH]; intros w; simpl.
  - exists w. reflexivity.
  - unfold bind, assign. apply IH.
Qed.

Lemma update_moving_statistics_returns (l : built_layer) (training : bool)
    (x : tensor) (w : world) :
  exists w', update_moving_statistics l training x w = Some (tt, w').
Proof.
  unfold update_moving_statistics. destruct training.
  - unfold bind, read. apply assign_all_returns.
  - exists w. reflexivity.
Qed.

Lemma dropout_returns (rate : R) (training : bool) (x : list R) (w : world) :
  exists y w', dropout rate training x w = Some (y, w').
Proof.
  unfold dropout. destruct training; eexists; eexists; reflexivity.
Qed.

(** A layer returns exactly when it accepts the shape of its input (and,
    for a [Flatten], the batch is not empty), and the shape of what it
    returns is the one [compute_output_shape] gives. *)
Lemma call_layer_shape (l : built_layer) (training : bool) (x : tensor)
    (w : world) (n : N) (s : list N) :
  shape x = n :: s ->
  match (if accepts l s && negb (is_flatten (config l) && (n =? 0)%N)
         then compute_output_shape (config l) s else None) with
  | Some s' =>
      exists y w', call_layer l training x w = Some (y, w')
                   /\ shape y = n :: s'
  | None => call_layer l training x w = None
  end.
Proof.
  intros Hx. unfold call_layer. rewrite Hx.
  destruct (accepts l s); [|reflexivity]. cbn [andb].
  destruct (config l) as [u b| | |t|f k st p b a|f k st p|rate|];
    cbn [is_flatten andb negb];
    try (destruct (compute_output_shape _ s) as [s'|]; [|reflexivity];
         eexists; eexists; split; reflexivity).
  - destruct (compute_output_shape _ s) as [s'|]; [|reflexivity].
    unfold bind, read.
    destruct (update_moving_statistics_returns l training x w) as (w' & ->).
    eexists; eexists; split; reflexivity.
  - destruct (compute_output_shape _ s) as [s'|]; [|reflexivity].
    unfold bind.
    destruct (dropout_returns rate training (data x) w) as (y & w' & ->).
    eexists; eexists; split; reflexivity.
  - cbn [compute_output_shape].
    destruct (n =? 0)%N; cbn [negb]; [reflexivity|].
    eexists; eexists; split; reflexivity.
Qed.

Lemma call_layers_shape (ls : list built_layer) (training : bool) :
  forall (x : tensor) (w : world) (n : N) (s : list N),
  shape x = n :: s ->
  match call_shape n ls s with
  | Some s' =>
      exists y w', call_layers ls training x w = Some (y, w')
                   /\ shape y = n :: s'
  | None => call_layers ls training x w = None
  end.
Proof.
  induction ls as [|l ls IH]; intros x w n s Hx; simpl.
  - exists x, w. split; [reflexivity|exact Hx].
  - pose proof (call_layer_shape l training x w Hx) as Hl.
    destruct (accepts l s && negb (is_flatten (config l) && (n =? 0)%N));
      [|apply bind_None_l; exact Hl].
    destruct (compute_output_shape (config l) s) as [s'|];
      [|apply bind_None_l; exact Hl].
    destruct Hl as (y & w1 & Hy & Hs).
    specialize (IH y w1 n s' Hs).
    unfold bind. rewrite Hy.
    exact IH.
Qed.

Lemma shape_eqb_refl (s : list N) : shape_eqb s s = true.
Proof.
  unfold shape_eqb. rewrite Nat.eqb_refl. simpl.
  induction s as [|a s IH]; simpl; [reflexivity|].
  rewrite N.eqb_refl. exact IH.
Qed.

Lemma shape_eqb_eq (s t : list N) : shape_eqb s t = true -> s = t.
Proof.
  unfold shape_eqb. revert t.
  induction s as [|a s IH]; intros [|b t] H; simpl in H;
    try reflexivity; try discriminate.
  apply andb_prop in H. destruct H as [Hl H].
  apply andb_prop in H. destruct H as [Hab H].
  apply N.eqb_eq in Hab. subst b. f_equal. apply IH.
  rewrite Hl. exact H.
Qed.

(** A call of a model, taken apart: the samples have the declared shape and
    the layers return. *)
Lemma call_Some (m : Sequential) (training : bool) (x y : tensor)
    (w w' : world) :
  call m x training w = Some (y, w') <->
  (exists n, shape x = n :: model_input_shape m)
  /\ call_layers (layers m) training x w = Some (y, w').
Proof.
  unfold call. destruct (shape x) as [|n s]; [split|].
  - discriminate.
  - intros [(n & Hn) _]. discriminate.
  - destruct (shape_eqb s (model_input_shape m)) eqn:He.
    + apply shape_eqb_eq in He. subst s. split.
      * intros H. split; [exists n; reflexivity|exact H].
      * intros [_ H]. exact H.
    + split; [discriminate|]. intros [(n' & Hn) _].
      inversion Hn; subst. rewrite shape_eqb_refl in He. discriminate.
Qed.

(** A call returns exactly when [model_call_shape] gives a shape. *)
Lemma call_shape_spec (m : Sequential) (training : bool) (x : tensor)
    (w : world) (n : N) (s : list N) :
  shape x = n :: s ->
  match model_call_shape n m s with
  | Some s' =>
      exists y w', call m x training w = Some (y, w')
                   /\ shape y = n :: s'
  | None => call m x training w = None
  end.
Proof.
  intros Hx. unfold model_call_shape, call. rewrite Hx.
  destruct (shape_eqb s (model_input_shape m)); [|reflexivity].
  exact (call_layers_shape (layers m) training x w Hx).
Qed.

End CallFacts.

(** ** The shapes of the notebook's models *)

Lemma generator_built :
  make_generator_model 0 = Some (generator, 16).
Proof. vm_compute. reflexivity. Qed.

Lemma discriminator_built :
  make_discriminator_model 16 = Some (discriminator, 22).
Proof. vm_compute. reflexivity. Qed.

Lemma generator_call_shape (n : N) :
  model_call_shape n generator [noise_dim] = Some [32; 32; 3]%N.
Proof. vm_compute. reflexivity. Qed.

Lemma discriminator_call_shape (n : N) :
  n <> 0%N ->
  model_call_shape n discriminator [64; 64; 3]%N = Some [1]%N.
Proof.
  destruct n as [|k]; [contradiction|]. intros _. vm_compute. reflexivity.
Qed.

(** The discriminator was declared for 64 by 64 images; it refuses the
    32 by 32 ones. *)
Lemma discriminator_rejects_generated (n : N) :
  model_call_shape n discriminator [32; 32; 3]%N = None.
Proof. vm_compute. reflexivity. Qed.

(** The notebook's [str] and file names, on the specification's example. *)
Example img_name_4237 : img_name 4237 = "4237.png"%string.
Proof. reflexivity. Qed.

Lemma notebook_variables :
  trainable_variables generator = [0; 1; 2; 5; 6; 7; 10; 11; 12; 15]
  /\ non_trainable_variables generator = [3; 4; 8; 9; 13; 14]
  /\ trainable_variables discriminator = [16; 17; 18; 19; 20; 21]
  /\ non_trainable_variables discriminator = [].
Proof. vm_compute. repeat split; reflexivity. Qed.

(** No variable is a parameter of both models. *)
Lemma notebook_parameters_disjoint (v : var) :
  In v (trainable_variables generator) ->
  ~ In v (trainable_variables discriminator).
Proof.
  destruct notebook_variables as (-> & _ & -> & _).
  simpl. intros HG HD.
  repeat (destruct HG as [<-|HG]; [lia|]). exact HG.
Qed.

(** ** File names *)

Lemma append_length (s t : string) :
  String.length (s ++ t) = String.length s + String.length t.
Proof. induction s as [|c s IH]; simpl; [reflexivity|]. rewrite IH. reflexivity. Qed.

Lemma append_cancel_r (t s s' : string) :
  (s ++ t)%string = (s' ++ t)%string -> s = s'.
Proof.
  revert s'. induction s as [|c s IH]; intros [|c' s'] H; simpl in H.
  - reflexivity.
  - apply (f_equal String.length) in H. simpl in H.
    rewrite append_length in H. lia.
  - apply (f_equal String.length) in H. simpl in H.
    rewrite append_length in H. lia.
  - inversion H as [[Hc Hs]]. f_equal. apply IH. exact Hs.
Qed.

Lemma str_injective (n m : nat) : str n = str m -> n = m.
Proof.
  unfold str. intros H.
  assert (Hu : Some (Nat.to_uint n) = Some (Nat.to_uint m)).
  { rewrite <- (NilEmpty.usu (Nat.to_uint n)),
            <- (NilEmpty.usu (Nat.to_uint m)), H. reflexivity. }
  inversion Hu as [Hd].
  rewrite <- (Unsigned.of_to n), <- (Unsigned.of_to m), Hd. reflexivity.
Qed.

Lemma img_name_injective (n m : nat) : img_name n = img_name m -> n = m.
Proof.
  unfold img_name. intros H. apply str_injective.
  exact (append_cancel_r _ _ _ H).
Qed.

Lemma img_names_NoDup (n : nat) : NoDup (map img_name (seq 0 n)).
Proof.
  apply Injective_map_NoDup; [|apply seq_NoDup].
  intros a b. apply img_name_injective.
Qed.

(** ** Counting the rounds *)

Lemma map_add_seq (f : nat -> string) (k b : nat) :
  map (fun j => f (k + j)) (seq 0 b) = map f (seq k b).
Proof.
  revert k. induction b as [|b IH]; intros k; simpl; [reflexivity|].
  rewrite Nat.add_0_r. f_equal.
  rewrite <- seq_shift, map_map, <- (IH (S k)).
  apply map_ext. intros j. f_equal. lia.
Qed.

(** Rounds that start at 0, b, 2b, ... and write b names each write the
    names of 0, 1, ..., r*b - 1 in order. *)
Lemma names_of_rounds (f : nat -> string) (b r : nat) :
  flat_map (fun i => map (fun j => f (i + j)) (seq 0 b))
           (map (fun k => 0 + k * b) (seq 0 r))
  = map f (seq 0 (r * b)).
Proof.
  induction r as [|r IH]; [reflexivity|].
  rewrite seq_S, map_app, flat_map_app, IH. simpl.
  rewrite app_nil_r, map_add_seq.
  replace (b + r * b) with (r * b + b) by lia.
  rewrite seq_app, map_app. reflexivity.
Qed.

Lemma range_starts (total batch : nat) :
  0 < batch ->
  range 0 total batch
  = Some (map (fun k => 0 + k * batch) (seq 0 (ceil_div total batch))).
Proof.
  intros Hb. unfold range, ceil_div.
  destruct (Nat.eqb_spec batch 0) as [->|_]; [lia|].
  rewrite Nat.sub_0_r. reflexivity.
Qed.

Lemma ceil_div_exact (total batch : nat) :
  0 < batch -> total mod batch = 0 -> ceil_div total batch * batch = total.
Proof.
  intros Hb Hm. unfold ceil_div.
  pose proof (Nat.div_mod_eq total batch) as Ht. rewrite Hm in Ht.
  set (q := total / batch) in *.
  replace (total + batch - 1) with (q * batch + (batch - 1)) by nia.
  rewrite Nat.div_add_l by lia.
  rewrite (Nat.div_small (batch - 1) batch) by lia. nia.
Qed.

Lemma ceil_div_inexact (total batch : nat) :
  0 < batch -> total mod batch <> 0 ->
  ceil_div total batch = S (total / batch)
  /\ total < ceil_div total batch * batch.
Proof.
  intros Hb Hm. unfold ceil_div.
  pose proof (Nat.div_mod_eq total batch) as Ht.
  pose proof (Nat.mod_upper_bound total batch ltac:(lia)) as Hr.
  set (q := total / batch) in *. set (r := total mod batch) in *.
  assert (Hq : (total + batch - 1) / batch = S q).
  { replace (total + batch - 1) with (S q * batch + (r - 1)) by nia.
    rewrite Nat.div_add_l by lia.
    rewrite (Nat.div_small (r - 1) batch) by lia. lia. }
  rewrite Hq. split; [reflexivity|nia].
Qed.


Section PackageFacts.

Context {B : Backend}.

Lemma tabulate_length (n : N) (f : nat -> R) :
  length (tabulate n f) = N.to_nat n.
Proof. unfold tabulate. rewrite length_map, length_seq. reflexivity. Qed.

Lemma size_cons (n : N) (s : list N) : size (n :: s) = (n * size s)%N.
Proof. reflexivity. Qed.

Lemma dropout_length (rate : R) (training : bool) (x y : list R)
    (w w' : world) :
  dropout rate training x w = Some (y, w') -> length y = length x.
Proof.
  unfold dropout. destruct training; intros H; inversion H; subst.
  - rewrite length_map, length_combine, length_seq. lia.
  - reflexivity.
Qed.

Lemma call_layer_well_formed (l : built_layer) (training : bool)
    (x y : tensor) (w w' : world) :
  well_formed x -> call_layer l training x w = Some (y, w') -> well_formed y.
Proof.
  unfold well_formed, call_layer. intros Hx.
  destruct (shape x) as [|n s] eqn:Hs; [discriminate|].
  destruct (accepts l s); [|discriminate].
  destruct (compute_output_shape (config l) s) as [s'|] eqn:Hc;
    [|discriminate].
  rewrite size_cons in Hx.
  destruct (config l) as [u b| | |t|f k st p b a|f k st p|rate|];
    simpl in Hc; intros H.
  - inversion H; subst; simpl. rewrite length_map. apply tabulate_length.
  - bind_inv H as ws w1 _.
    bind_inv H as u w2 _.
    inversion H; subst; simpl. apply tabulate_length.
  - inversion H; subst; simpl. inversion Hc; subst.
    rewrite length_map, Hx. reflexivity.
  - destruct (N.eqb_spec (size s) (size t)) as [He|]; [|discriminate].
    inversion Hc; subst. inversion H; subst; simpl.
    rewrite Hx, He. reflexivity.
  - inversion H; subst; simpl. rewrite length_map. apply tabulate_length.
  - inversion H; subst; simpl. rewrite length_map. apply tabulate_length.
  - bind_inv H as d w1 Hd.
    inversion H; subst; simpl. inversion Hc; subst.
    rewrite (dropout_length _ _ _ _ Hd), Hx. reflexivity.
  - destruct (n =? 0)%N; [discriminate|].
    inversion H; subst; simpl. inversion Hc; subst.
    rewrite Hx. f_equal. simpl. lia.
Qed.

Lemma call_layers_well_formed (ls : list built_layer) (training : bool) :
  forall (x y : tensor) (w w' : world),
  well_formed x -> call_layers ls training x w = Some (y, w') ->
  well_formed y.
Proof.
  induction ls as [|l ls IH]; intros x y w w' Hx H; simpl in H.
  - inversion H; subst. exact Hx.
  - apply bind_Some in H. destruct H as (x1 & w1 & H1 & H2).
    apply (IH x1 y w1 w'); [|exact H2].
    exact (call_layer_well_formed _ _ _ Hx H1).
Qed.

Lemma random_normal_returns (s : list N) (w : world) :
  exists noise,
    random_normal s w
    = Some (noise, mk_world (variables w) (optimizer w) (advance (rng w)))
    /\ shape noise = s /\ well_formed noise.
Proof.
  eexists. split; [reflexivity|]. split; [reflexivity|].
  unfold well_formed. simpl. apply tabulate_length.
Qed.

(** The rescaled and converted array of a round. *)
Lemma quantized_data (t : tensor) :
  data (astype_uint8 (mul_scalar (div_scalar (add_scalar t 1) 2) 255))
  = map quantize (data t).
Proof. simpl. rewrite !map_map. reflexivity. Qed.

Lemma quantized_bytes (t : tensor) :
  Forall (fun p => (0 <= p < 256)%Z)
    (data (astype_uint8 (mul_scalar (div_scalar (add_scalar t 1) 2) 255))).
Proof.
  simpl. apply Forall_forall. intros p Hp.
  apply in_map_iff in Hp. destruct Hp as (x & <- & _).
  unfold uint8_of_float. apply Z.mod_pos_bound. lia.
Qed.

Lemma quantized_well_formed (t : tensor) :
  well_formed t ->
  well_formed (astype_uint8 (mul_scalar (div_scalar (add_scalar t 1) 2) 255)).
Proof.
  unfold well_formed. simpl. rewrite !length_map. intros H. exact H.
Qed.

Lemma In_firstn (A : Type) (x : A) (k : nat) :
  forall l, In x (firstn k l) -> In x l.
Proof.
  induction k as [|k IH]; intros [|a l] H; simpl in H; try contradiction.
  destruct H as [H|H]; [left; exact H|right; exact (IH l H)].
Qed.

Lemma In_skipn (A : Type) (x : A) (k : nat) :
  forall l, In x (skipn k l) -> In x l.
Proof.
  induction k as [|k IH]; intros [|a l] H; simpl in H; try assumption.
  right. exact (IH l H).
Qed.

Lemma getitem_slice (A : Type) (a : ndarray A) (n : N) (s : list N) (j : nat) :
  shape a = n :: s -> well_formed a -> (N.of_nat j < n)%N ->
  exists sl, getitem a j = Some (mk_ndarray s sl)
             /\ length sl = N.to_nat (size s)
             /\ incl sl (data a).
Proof.
  unfold well_formed, getitem. intros Hs Hw Hj. rewrite Hs in *.
  destruct (N.ltb_spec (N.of_nat j) n) as [_|Hge]; [|lia].
  eexists. split; [reflexivity|]. split.
  - rewrite size_cons, N2Nat.inj_mul in Hw.
    rewrite length_firstn, length_skipn, Hw. nia.
  - intros x Hx. apply In_firstn in Hx.
    exact (In_skipn _ _ _ Hx).
Qed.

(** The inner loop only appends, one entry per index, named by [i + j]. *)
Lemma write_batch_names (a : ndarray Z) (i : nat) (js : list nat) :
  forall z z', write_batch a i js z = Some z' ->
  exists new, z' = z ++ new
              /\ map fst new = map (fun j => img_name (i + j)) js.
Proof.
  induction js as [|j js IH]; intros z z' H; simpl in H.
  - inversion H; subst. exists []. rewrite app_nil_r. split; reflexivity.
  - destruct (getitem a j) as [b|]; [|discriminate].
    destruct (fromarray b) as [img|]; [|discriminate].
    destruct (save img) as [stream|]; [|discriminate].
    apply IH in H. destruct H as (new & -> & Hn).
    exists ((img_name (i + j), stream) :: new). unfold writestr.
    rewrite <- app_assoc. split; [reflexivity|].
    simpl. rewrite Hn. reflexivity.
Qed.




(** On a well-formed batch of [n] byte images of [h] rows, [w] columns and 3
    channels the inner loop returns, and each entry is an RGB stream of that
    size. *)
Lemma write_batch_rgb (a : ndarray Z) (n h w : N) (i : nat) (js : list nat) :
  shape a = [n; h; w; 3]%N -> well_formed a ->
  (0 < h)%N -> (0 < w)%N ->
  Forall (fun p => (0 <= p < 256)%Z) (data a) ->
  Forall (fun j => (N.of_nat j < n)%N) js ->
  forall z, exists new,
    write_batch a i js z = Some (z ++ new) /\ Forall (rgb_entry h w) new.
Proof.
  intros Hs Hw Hh Hw0 Hb. induction js as [|j js IH]; intros Hjs z; simpl.
  - exists []. rewrite app_nil_r. split; [reflexivity|constructor].
  - inversion Hjs as [|j' js' Hj Hjs']; subst.
    destruct (getitem_slice j Hs Hw Hj) as (sl & -> & Hl & Hin).
    cbn [fromarray shape data]. unfold save. cbn [width height].
    destruct (N.eqb_spec w 0) as [Hz|_]; [lia|].
    destruct (N.eqb_spec h 0) as [Hz|_]; [lia|]. cbn [orb].
    change (str (i + j) ++ ".png")%string with (img_name (i + j)).
    destruct (IH Hjs' (writestr z (img_name (i + j))
                          (PNG (mk_Image RGB w h sl)))) as (new & -> & Hn).
    exists ((img_name (i + j), PNG (mk_Image RGB w h sl)) :: new).
    unfold writestr. rewrite <- app_assoc. split; [reflexivity|].
    constructor; [|exact Hn].
    unfold rgb_entry, valid_png. simpl. repeat split.
    + rewrite Hl, N2Nat.id. simpl. lia.
    + apply Forall_forall. intros p Hp.
      rewrite Forall_forall in Hb. apply Hb, Hin, Hp.
Qed.

Lemma seq_below (n : nat) :
  Forall (fun j => (N.of_nat j < N.of_nat n)%N) (seq 0 n).
Proof.
  apply Forall_forall. intros j Hj. apply in_seq in Hj. lia.
Qed.

Section Rounds.

Variable generator : Sequential.

(** The rounds only append; they write, round after round, the names of
    [i + 0], ..., [i + batch_size - 1] for each start [i]. *)
Lemma rounds_names (batch_size : nat) (starts : list nat) :
  forall z w z' w', rounds generator batch_size starts z w = Some (z', w') ->
  exists new,
    z' = z ++ new
    /\ map fst new
       = flat_map (fun i => map (fun j => img_name (i + j)) (seq 0 batch_size))
           starts.
Proof.
  induction starts as [|i starts IH]; intros z w z' w' H; simpl in H.
  - inversion H; subst. exists []. rewrite app_nil_r. split; reflexivity.
  - bind_inv H as noise w1 _.
    bind_inv H as g w2 _.
    bind_inv H as z1 w3 Hz.
    apply lift_Some in Hz. destruct Hz as [Hz ->].
    apply write_batch_names in Hz. destruct Hz as (new1 & -> & Hn1).
    apply IH in H. destruct H as (new2 & -> & Hn2).
    exists (new1 ++ new2). rewrite app_assoc. split; [reflexivity|].
    simpl. rewrite map_app, Hn1, Hn2. reflexivity.
Qed.

(** The rounds leave every variable and both optimizers as they were, and
    draw from the random generator once per round. *)
Lemma rounds_frame (batch_size : nat) (starts : list nat) :
  forall z w z' w', rounds generator batch_size starts z w = Some (z', w') ->
  variables w' = variables w
  /\ optimizer w' = optimizer w
  /\ rng w' = Nat.iter (length starts) advance (rng w).
Proof.
  induction starts as [|i starts IH]; intros z w z' w' H; simpl in H.
  - inversion H; subst. repeat split; reflexivity.
  - bind_inv H as noise w1 Hn.
    bind_inv H as g w2 Hg.
    bind_inv H as z1 w3 Hz.
    apply lift_Some in Hz. destruct Hz as [_ ->].
    apply call_inference_silent in Hg. subst w2.
    inversion Hn; subst w1. clear Hn.
    apply IH in H. destruct H as (Hv & Ho & Hr).
    rewrite Hv, Ho, Hr. simpl. repeat split.
    rewrite <- Nat.iter_succ_r. reflexivity.
Qed.

(** With a generator that turns noise into [h] by [w] images of 3 channels,
    the rounds return and every entry is an RGB stream of that size. *)
Lemma rounds_rgb (h w : N) (batch_size : nat) (starts : list nat) :
  model_call_shape (N.of_nat batch_size) generator [noise_dim]
  = Some [h; w; 3]%N ->
  (0 < h)%N -> (0 < w)%N ->
  forall z w0, exists new w',
    rounds generator batch_size starts z w0 = Some (z ++ new, w')
    /\ Forall (rgb_entry h w) new.
Proof.
  intros Hg Hh Hw. induction starts as [|i starts IH]; intros z w0; simpl.
  - exists [], w0. rewrite app_nil_r. split; [reflexivity|constructor].
  - destruct (random_normal_returns [N.of_nat batch_size; noise_dim] w0)
      as (noise & Hn & Hs & Hwf).
    unfold bind at 1. rewrite Hn.
    pose proof (call_shape_spec generator false noise
                  (mk_world (variables w0) (optimizer w0) (advance (rng w0)))
                  Hs) as Hc.
    rewrite Hg in Hc. destruct Hc as (g & w1 & Hc & Hgs).
    unfold bind at 1. rewrite Hc.
    assert (Hgw : well_formed g).
    { apply call_Some in Hc. destruct Hc as [_ Hc].
      eapply call_layers_well_formed; eassumption. }
    set (a := astype_uint8 (mul_scalar (div_scalar (add_scalar g 1) 2) 255)).
    destruct (write_batch_rgb (a := a) (n := N.of_nat batch_size) i
                Hgs (quantized_well_formed Hgw) Hh Hw (quantized_bytes g)
                (seq_below batch_size) z) as (new1 & Hw1 & Hn1).
    unfold bind at 1. unfold lift at 1. rewrite Hw1.
    destruct (IH (z ++ new1) w1) as (new2 & w' & Hr & Hn2).
    exists (new1 ++ new2), w'. rewrite app_assoc. split; [exact Hr|].
    apply Forall_app. split; assumption.
Qed.

End Rounds.

End PackageFacts.

(** ** The submission cell *)

Section PackageTheorems.

Context {B : Backend}.

Lemma package_rounds (G : Sequential) (total batch : nat) (w : world) :
  0 < batch ->
  package G total batch w
  = rounds G batch (map (fun k => 0 + k * batch)
                      (seq 0 (ceil_div total batch))) [] w.
Proof.
  intros Hb. unfold package, bind, lift.
  rewrite (range_starts total Hb). reflexivity.
Qed.

Lemma package_zero_batch (G : Sequential) (total : nat) (w : world) :
  package G total 0 w = None.
Proof. reflexivity. Qed.

Lemma package_names (G : Sequential) (total batch : nat) (w w' : world)
    (z : ZipFile) :
  0 < batch -> package G total batch w = Some (z, w') ->
  map fst z = map img_name (seq 0 (ceil_div total batch * batch)).
Proof.
  intros Hb H. rewrite (package_rounds G total w Hb) in H.
  apply rounds_names in H. destruct H as (new & -> & Hn).
  simpl. rewrite Hn. apply names_of_rounds.
Qed.

Lemma package_generator_returns (total batch : nat) (w : world) :
  0 < batch ->
  exists z w', package generator total batch w = Some (z, w')
               /\ Forall (rgb_entry 32 32) z.
Proof.
  intros Hb. rewrite (package_rounds generator total w Hb).
  destruct (rounds_rgb generator batch
              (map (fun k => 0 + k * batch) (seq 0 (ceil_div total batch)))
              (generator_call_shape (N.of_nat batch))
              (eq_refl : (0 < 32)%N) (eq_refl : (0 < 32)%N) [] w)
    as (new & w' & H & Hn).
  exists new, w'. split; assumption.
Qed.

(** C1, as the code has it: the images the submission cell writes are valid
    RGB PNG streams of 32 rows and 32 columns, the output resolution of
    [make_generator_model], for every entry and whatever the counts and the
    trained weights are; they are not 64 by 64. *)
Theorem package_writes_32_by_32 (total batch : nat) (w : world) :
  0 < batch ->
  output_shape generator = Some [32; 32; 3]%N
  /\ exists z w',
       package generator total batch w = Some (z, w')
       /\ Forall (rgb_entry 32 32) z
       /\ Forall (fun e => height (decode (snd e)) <> 64%N
                           /\ width (decode (snd e)) <> 64%N) z.
Proof.
  intros Hb. split; [vm_compute; reflexivity|].
  destruct (package_generator_returns total w Hb) as (z & w' & H & Hz).
  exists z, w'. split; [exact H|]. split; [exact Hz|].
  apply Forall_forall. intros e He.
  rewrite Forall_forall in Hz. destruct (Hz e He) as (_ & -> & -> & _).
  split; discriminate.
Qed.

(** C2: when [batch] divides [total], whatever the generator is, an archive
    the cell returns holds exactly [total] entries, named [0.png],
    [1.png], ..., in order, each index below [total] once; and with the
    notebook's generator the cell does return one. *)
Theorem package_names_every_index (total batch : nat) :
  0 < batch -> total mod batch = 0 ->
  (forall (G : Sequential) (w w' : world) (z : ZipFile),
     package G total batch w = Some (z, w') ->
     map fst z = map img_name (seq 0 total)
     /\ NoDup (map fst z)
     /\ length z = total)
  /\ (forall w : world,
        exists z w', package generator total batch w = Some (z, w')).
Proof.
  intros Hb Hm. split.
  - intros G w w' z H.
    pose proof (package_names G total w Hb H) as Hn.
    rewrite ceil_div_exact in Hn by assumption.
    split; [exact Hn|]. split.
    + rewrite Hn. apply img_names_NoDup.
    + rewrite <- (length_map fst z), Hn, length_map, length_seq.
      reflexivity.
  - intros w. destruct (package_generator_returns total w Hb)
      as (z & w' & H & _).
    exists z, w'. exact H.
Qed.

(** C8: the submission cell leaves every variable (so every parameter of the
    generator, its moving statistics included) and both optimizers exactly
    as they were: its calls of the generator are at inference, and it
    applies no gradient. *)
Theorem package_leaves_parameters (G : Sequential) (total batch : nat)
    (w w' : world) (z : ZipFile) :
  package G total batch w = Some (z, w') ->
  variables w' = variables w /\ optimizer w' = optimizer w.
Proof.
  intros H. unfold package in H.
  bind_inv H as starts w1 Hs.
  apply lift_Some in Hs. destruct Hs as [_ ->].
  apply rounds_frame in H. destruct H as (Hv & Ho & _).
  split; assumption.
Qed.

(** C10: when [batch] does not divide [total], the loop runs
    [ceil_div total batch] rounds, one more than the quotient, with one
    noise draw and [batch] images each: an archive the cell returns holds
    [ceil_div total batch * batch] entries, more than [total], named by the
    indices from 0 on; and with the notebook's generator the cell does
    return one. *)
Theorem package_overshoots (total batch : nat) :
  0 < batch -> total mod batch <> 0 ->
  ceil_div total batch = S (total / batch)
  /\ option_map (@length nat) (range 0 total batch)
     = Some (ceil_div total batch)
  /\ (forall (G : Sequential) (w w' : world) (z : ZipFile),
        package G total batch w = Some (z, w') ->
        map fst z = map img_name (seq 0 (ceil_div total batch * batch))
        /\ length z = ceil_div total batch * batch
        /\ total < length z
        /\ rng w' = Nat.iter (ceil_div total batch) advance (rng w))
  /\ (forall w : world,
        exists z w', package generator total batch w = Some (z, w')).
Proof.
  intros Hb Hm. split; [|split; [|split]].
  - apply ceil_div_inexact; assumption.
  - rewrite (range_starts total Hb). simpl.
    rewrite length_map, length_seq. reflexivity.
  - intros G w w' z H.
    pose proof (package_names G total w Hb H) as Hn.
    assert (Hl : length z = ceil_div total batch * batch).
    { rewrite <- (length_map fst z), Hn, length_map, length_seq.
      reflexivity. }
    split; [exact Hn|]. split; [exact Hl|]. split.
    + rewrite Hl. apply ceil_div_inexact; assumption.
    + rewrite (package_rounds G total w Hb) in H.
      apply rounds_frame in H. destruct H as (_ & _ & Hr).
      rewrite Hr, length_map, length_seq. reflexivity.
  - intros w. destruct (package_generator_returns total w Hb)
      as (z & w' & H & _).
    exists z, w'. exact H.
Qed.

End PackageTheorems.

(** ** The losses *)

Local Open Scope R_scope.

Lemma softplus_nonneg (y : R) : 0 <= ln (1 + exp y).
Proof.
  rewrite <- ln_1. pose proof (exp_pos y) as He.
  destruct (Req_dec (exp y) 0) as [H0|_]; [lra|].
  left. apply ln_increasing; lra.
Qed.

Lemma cross_entropy_entry_nonneg (z x : R) :
  z = 0 \/ z = 1 -> 0 <= sigmoid_cross_entropy_with_logits z x.
Proof.
  intros Hz. unfold sigmoid_cross_entropy_with_logits.
  pose proof (softplus_nonneg (- Rabs x)) as Hs.
  pose proof (Rmax_l x 0) as Hl. pose proof (Rmax_r x 0) as Hr.
  destruct Hz as [-> | ->]; lra.
Qed.

(** The form the library evaluates is the textbook cross-entropy of the
    sigmoid of the logit. *)
Lemma cross_entropy_entry_sigmoid (z x : R) :
  sigmoid_cross_entropy_with_logits z x = binary_cross_entropy z (sigmoid x).
Proof.
  unfold sigmoid_cross_entropy_with_logits, binary_cross_entropy, sigmoid.
  pose proof (exp_pos (- x)) as He. pose proof (exp_pos x) as Hx.
  assert (H1 : ln (1 / (1 + exp (- x))) = - ln (1 + exp (- x))).
  { unfold Rdiv. rewrite Rmult_1_l. apply ln_Rinv. lra. }
  assert (H2 : 1 - 1 / (1 + exp (- x)) = exp (- x) * / (1 + exp (- x))).
  { field. lra. }
  assert (H3 : ln (1 - 1 / (1 + exp (- x))) = - x - ln (1 + exp (- x))).
  { rewrite H2, ln_mult, ln_exp, ln_Rinv; try lra.
    apply Rinv_0_lt_compat. lra. }
  rewrite H1, H3.
  destruct (Rle_dec 0 x) as [Hp|Hn].
  - rewrite Rmax_left, Rabs_right by lra. lra.
  - rewrite Rmax_right, Rabs_left by lra. rewrite Ropp_involutive.
    assert (H4 : 1 + exp x = exp x * (1 + exp (- x))).
    { rewrite Rmult_plus_distr_l, <- exp_plus, Rplus_opp_r, exp_0. lra. }
    rewrite H4, ln_mult, ln_exp by lra. lra.
Qed.

Lemma reduce_sum_nonneg (l : list R) :
  Forall (fun x => 0 <= x) l -> 0 <= reduce_sum l.
Proof.
  induction 1 as [|x l Hx Hl IH]; simpl; lra.
Qed.

Lemma reduce_mean_nonneg (l : list R) :
  Forall (fun x => 0 <= x) l -> 0 <= reduce_mean l.
Proof.
  intros H. unfold reduce_mean.
  destruct (Nat.eqb_spec (length l) 0) as [_|Hn]; [lra|].
  apply Rmult_le_pos; [apply reduce_sum_nonneg; exact H|].
  left. apply Rinv_0_lt_compat. apply lt_0_INR. lia.
Qed.

Lemma combine_constant (c : R) (l : list R) :
  combine (map (fun _ => c) l) l = map (fun x => (c, x)) l.
Proof. induction l as [|x l IH]; simpl; [reflexivity|]. rewrite IH. reflexivity. Qed.

(** Against a constant target the loss is the mean, over the scores, of the
    cross-entropy of the sigmoid of each score. *)
Lemma cross_entropy_constant (c : R) (t : tensor) :
  cross_entropy (mk_ndarray (shape t) (map (fun _ => c) (data t))) t
  = reduce_mean (map (fun x => binary_cross_entropy c (sigmoid x)) (data t)).
Proof.
  unfold cross_entropy. simpl. rewrite combine_constant, map_map.
  f_equal. apply map_ext. intros x. simpl.
  apply cross_entropy_entry_sigmoid.
Qed.

Lemma cross_entropy_constant_nonneg (c : R) (t : tensor) :
  c = 0 \/ c = 1 ->
  0 <= cross_entropy (mk_ndarray (shape t) (map (fun _ => c) (data t))) t.
Proof.
  intros Hc. unfold cross_entropy. simpl.
  rewrite combine_constant, map_map.
  apply reduce_mean_nonneg, Forall_forall. intros y Hy.
  apply in_map_iff in Hy. destruct Hy as (x & <- & _). simpl.
  apply cross_entropy_entry_nonneg. exact Hc.
Qed.

Local Close Scope R_scope.

(** ** The optimizers write only what they are given *)

Section StepFacts.

Context {B : Backend}.

Lemma writes_only_refl (name : optimizer_name) (vs : list var) (w : world) :
  writes_only name vs w w.
Proof. repeat split. Qed.

Lemma writes_only_trans (name : optimizer_name) (vs : list var)
    (w1 w2 w3 : world) :
  writes_only name vs w1 w2 -> writes_only name vs w2 w3 ->
  writes_only name vs w1 w3.
Proof.
  intros (Hv & Ho & Hr) (Hv' & Ho' & Hr'). repeat split.
  - intros u Hu. rewrite (Hv' u Hu). exact (Hv u Hu).
  - intros n Hn. rewrite (Ho' n Hn). exact (Ho n Hn).
  - rewrite Hr'. exact Hr.
Qed.

Lemma adam_update_writes (name : optimizer_name) (g : tensor) (v : var)
    (w : world) :
  exists w', adam_update name g v w = Some (tt, w')
             /\ writes_only name [v] w w'.
Proof.
  eexists. split; [reflexivity|]. repeat split; simpl.
  - intros u Hu. destruct (Nat.eqb_spec u v) as [->|_]; [|reflexivity].
    exfalso. apply Hu. left. reflexivity.
  - intros n Hn. destruct n, name; try reflexivity; contradiction.
Qed.

Lemma adam_updates_writes (name : optimizer_name)
    (grads_and_vars : list (tensor * var)) :
  forall w, exists w',
    adam_updates name grads_and_vars w = Some (tt, w')
    /\ writes_only name (map snd grads_and_vars) w w'.
Proof.
  induction grads_and_vars as [|[g v] rest IH]; intros w; simpl.
  - exists w. split; [reflexivity|apply writes_only_refl].
  - destruct (adam_update_writes name g v w) as (w1 & H1 & (Hv & Ho & Hr)).
    destruct (IH w1) as (w2 & H2 & (Hv' & Ho' & Hr')).
    exists w2. unfold bind. rewrite H1. split; [exact H2|].
    repeat split.
    + intros u Hu. simpl in Hu. rewrite Hv', Hv; [reflexivity| |];
        intros Hin; apply Hu; simpl in Hin; tauto.
    + intros n Hn. rewrite (Ho' n Hn). exact (Ho n Hn).
    + rewrite Hr'. exact Hr.
Qed.

(** [apply_gradients] writes only the variables it was handed and the state
    of its own optimizer. *)
Lemma apply_gradients_writes (name : optimizer_name)
    (grads : list tensor) (vs : list var) (w w' : world) :
  apply_gradients name (combine grads vs) w = Some (tt, w') ->
  writes_only name vs w w'.
Proof.
  unfold apply_gradients.
  destruct (combine grads vs) as [|gv rest] eqn:Hc.
  - destruct empty_gradients_raise; [discriminate|].
    intros H. inversion H. apply writes_only_refl.
  - rewrite <- Hc. clear Hc.
    destruct (adam_updates_writes name (combine grads vs) w)
      as (w1 & H1 & (Hv & Ho & Hr)).
    unfold bind. rewrite H1. intros H. inversion H; subst w'.
    repeat split; simpl.
    + intros u Hu. apply Hv. intros Hin. apply Hu.
      apply in_map_iff in Hin. destruct Hin as ([g v] & <- & Hin).
      exact (in_combine_r _ _ _ _ Hin).
    + intros n Hn. rewrite <- (Ho n Hn).
      destruct n, name; try reflexivity; contradiction.
    + exact Hr.
Qed.

(** It returns on the gradients of [vs] exactly when [applies vs] says so,
    whatever the world is. *)
Lemma apply_gradients_returns (name : optimizer_name) (f : var -> tensor)
    (vs : list var) (w : world) :
  if applies vs
  then exists w', apply_gradients name (combine (map f vs) vs) w
                  = Some (tt, w')
  else apply_gradients name (combine (map f vs) vs) w = None.
Proof.
  unfold applies, apply_gradients. destruct vs as [|v vs].
  - simpl. destruct empty_gradients_raise; simpl; [reflexivity|].
    exists w. reflexivity.
  - cbn [map combine].
    destruct (adam_updates_writes name ((f v, v) :: combine (map f vs) vs) w)
      as (w1 & H1 & _).
    unfold bind. rewrite H1. eexists. reflexivity.
Qed.

Section Models.

Variables G D : Sequential.

Lemma forward_Some (images noise : tensor) (w w' : world) (l : R * R) :
  forward G D images noise w = Some (l, w') <->
  exists generated_images w1 real_output w2 fake_output,
    call G noise true w = Some (generated_images, w1)
    /\ call D images true w1 = Some (real_output, w2)
    /\ call D generated_images true w2 = Some (fake_output, w')
    /\ l = (cross_entropy (ones_like fake_output) fake_output,
            (cross_entropy (ones_like real_output) real_output
             + cross_entropy (zeros_like fake_output) fake_output)%R).
Proof.
  unfold forward. split.
  - intros H.
    bind_inv H as g w1 Hg.
    bind_inv H as r w2 Hr.
    bind_inv H as f w3 Hf.
    inversion H; subst. exists g, w1, r, w2, f. repeat split; assumption.
  - intros (g & w1 & r & w2 & f & Hg & Hr & Hf & ->).
    unfold bind. rewrite Hg, Hr, Hf. reflexivity.
Qed.

(** One step, taken apart: the draw of the noise, the recorded block, then
    the generator's optimizer and then the discriminator's, each handed the
    gradient of its own loss as recorded for that same noise. *)
Lemma train_step_Some (images : tensor) (w w' : world) (l : R * R) :
  train_step G D images w = Some (l, w') <->
  exists n s noise w0 w1 w2,
    shape images = n :: s
    /\ random_normal [n; noise_dim] w = Some (noise, w0)
    /\ forward G D images noise w0 = Some (l, w1)
    /\ apply_gradients generator_optimizer
         (combine (tape_gradient G D w0 images noise fst
                     (trainable_variables G))
                  (trainable_variables G)) w1 = Some (tt, w2)
    /\ apply_gradients discriminator_optimizer
         (combine (tape_gradient G D w0 images noise snd
                     (trainable_variables D))
                  (trainable_variables D)) w2 = Some (tt, w').
Proof.
  unfold train_step. split.
  - destruct (shape images) as [|n s]; [discriminate|].
    intros H. bind_inv H as noise w0 Hn.
    bind_inv H as tape w0' Ht. inversion Ht; subst tape w0'.
    bind_inv H as l' w1 Hf.
    bind_inv H as [] w2 Hg.
    bind_inv H as [] w3 Hd.
    inversion H; subst.
    exists n, s, noise, w0, w1, w2. repeat split; assumption.
  - intros (n & s & noise & w0 & w1 & w2 & Hs & Hn & Hf & Hg & Hd).
    rewrite Hs. unfold bind at 1. rewrite Hn.
    unfold bind, get_world. rewrite Hf, Hg, Hd. reflexivity.
Qed.

Lemma train_step_swapped_Some (images : tensor) (w w' : world) (l : R * R) :
  train_step_swapped G D images w = Some (l, w') <->
  exists n s noise w0 w1 w2,
    shape images = n :: s
    /\ random_normal [n; noise_dim] w = Some (noise, w0)
    /\ forward G D images noise w0 = Some (l, w1)
    /\ apply_gradients discriminator_optimizer
         (combine (tape_gradient G D w0 images noise snd
                     (trainable_variables D))
                  (trainable_variables D)) w1 = Some (tt, w2)
    /\ apply_gradients generator_optimizer
         (combine (tape_gradient G D w0 images noise fst
                     (trainable_variables G))
                  (trainable_variables G)) w2 = Some (tt, w').
Proof.
  unfold train_step_swapped. split.
  - destruct (shape images) as [|n s]; [discriminate|].
    intros H. bind_inv H as noise w0 Hn.
    bind_inv H as tape w0' Ht. inversion Ht; subst tape w0'.
    bind_inv H as l' w1 Hf.
    bind_inv H as [] w2 Hg.
    bind_inv H as [] w3 Hd.
    inversion H; subst.
    exists n, s, noise, w0, w1, w2. repeat split; assumption.
  - intros (n & s & noise & w0 & w1 & w2 & Hs & Hn & Hf & Hg & Hd).
    rewrite Hs. unfold bind at 1. rewrite Hn.
    unfold bind, get_world. rewrite Hf, Hg, Hd. reflexivity.
Qed.

(** The step returns its losses exactly when the recorded block returns
    and both optimizers are handed a gradient to apply. *)
Lemma train_step_losses (images : tensor) (w : world) :
  option_map fst (train_step G D images w)
  = match shape images with
    | [] => None
    | n :: _ =>
        match random_normal [n; noise_dim] w with
        | Some (noise, w0) =>
            if applies (trainable_variables G)
               && applies (trainable_variables D)
            then option_map fst (forward G D images noise w0)
            else None
        | None => None
        end
    end.
Proof.
  unfold train_step. destruct (shape images) as [|n s]; [reflexivity|].
  unfold bind at 1.
  destruct (random_normal [n; noise_dim] w) as [[noise w0]|]; [|reflexivity].
  unfold bind at 1, get_world. unfold bind at 1.
  destruct (forward G D images noise w0) as [[l w1]|];
    [|destruct (applies _ && applies _); reflexivity].
  unfold tape_gradient.
  pose proof (apply_gradients_returns generator_optimizer
                (gradient (recorded G D w0 images noise fst) (variables w0))
                (trainable_variables G) w1) as Hg.
  unfold bind at 1.
  destruct (applies (trainable_variables G)); [|rewrite Hg; reflexivity].
  destruct Hg as (w2 & ->).
  pose proof (apply_gradients_returns discriminator_optimizer
                (gradient (recorded G D w0 images noise snd) (variables w0))
                (trainable_variables D) w2) as Hd.
  unfold bind at 1.
  destruct (applies (trainable_variables D)); [|rewrite Hd; reflexivity].
  destruct Hd as (w3 & ->). reflexivity.
Qed.

Lemma train_step_swapped_losses (images : tensor) (w : world) :
  option_map fst (train_step_swapped G D images w)
  = match shape images with
    | [] => None
    | n :: _ =>
        match random_normal [n; noise_dim] w with
        | Some (noise, w0) =>
            if applies (trainable_variables G)
               && applies (trainable_variables D)
            then option_map fst (forward G D images noise w0)
            else None
        | None => None
        end
    end.
Proof.
  unfold train_step_swapped. destruct (shape images) as [|n s]; [reflexivity|].
  unfold bind at 1.
  destruct (random_normal [n; noise_dim] w) as [[noise w0]|]; [|reflexivity].
  unfold bind at 1, get_world. unfold bind at 1.
  destruct (forward G D images noise w0) as [[l w1]|];
    [|destruct (applies _ && applies _); reflexivity].
  unfold tape_gradient.
  pose proof (apply_gradients_returns discriminator_optimizer
                (gradient (recorded G D w0 images noise snd) (variables w0))
                (trainable_variables D) w1) as Hd.
  unfold bind at 1.
  destruct (applies (trainable_variables D));
    [|rewrite Hd, andb_false_r; reflexivity].
  destruct Hd as (w2 & ->).
  pose proof (apply_gradients_returns generator_optimizer
                (gradient (recorded G D w0 images noise fst) (variables w0))
                (trainable_variables G) w2) as Hg.
  unfold bind at 1.
  destruct (applies (trainable_variables G)); [|rewrite Hg; reflexivity].
  destruct Hg as (w3 & ->). reflexivity.
Qed.

End Models.

End StepFacts.

(** ** The training step *)

Section StepTheorems.

Context {B : Backend}.

Variables G D : Sequential.

(** The step returns whenever the generator accepts the noise, the
    discriminator accepts both the real and the generated images, and each
    optimizer is handed a gradient to apply. *)
Lemma train_step_returns (images : tensor) (w : world) (n : N)
    (s sg s1 s2 : list N) :
  shape images = n :: s ->
  model_call_shape n G [noise_dim] = Some sg ->
  model_call_shape n D s = Some s1 ->
  model_call_shape n D sg = Some s2 ->
  applies (trainable_variables G) = true ->
  applies (trainable_variables D) = true ->
  exists l w', train_step G D images w = Some (l, w').
Proof.
  intros Hs HG HD1 HD2 HaG HaD.
  destruct (random_normal_returns [n; noise_dim] w) as (noise & Hn & Hns & _).
  set (w0 := mk_world (variables w) (optimizer w) (advance (rng w))) in *.
  pose proof (call_shape_spec G true noise w0 Hns) as Hg.
  rewrite HG in Hg. destruct Hg as (g & w1 & Hg & Hgs).
  pose proof (call_shape_spec D true images w1 Hs) as Hr.
  rewrite HD1 in Hr. destruct Hr as (r & w2 & Hr & _).
  pose proof (call_shape_spec D true g w2 Hgs) as Hf.
  rewrite HD2 in Hf. destruct Hf as (f & w3 & Hf & _).
  pose proof (apply_gradients_returns generator_optimizer
                (gradient (recorded G D w0 images noise fst) (variables w0))
                (trainable_variables G) w3) as H4.
  rewrite HaG in H4. destruct H4 as (w4 & H4).
  pose proof (apply_gradients_returns discriminator_optimizer
                (gradient (recorded G D w0 images noise snd) (variables w0))
                (trainable_variables D) w4) as H5.
  rewrite HaD in H5. destruct H5 as (w5 & H5).
  eexists. exists w5. apply train_step_Some.
  exists n, s, noise, w0, w3, w4. repeat split; try assumption.
  apply forward_Some. exists g, w1, r, w2, f.
  repeat split; assumption.
Qed.

(** The recorded block raises when the discriminator rejects what the
    generator produces. *)
Lemma forward_raises (images noise : tensor) (w : world) (sg : list N) :
  (forall n, model_call_shape n G [noise_dim] = Some sg) ->
  (forall n, model_call_shape n D sg = None) ->
  forward G D images noise w = None.
Proof.
  intros HG HD.
  destruct (forward G D images noise w) as [[l w']|] eqn:H; [|reflexivity].
  exfalso. apply forward_Some in H.
  destruct H as (g & w3 & r & w4 & f & Hg & _ & Hf & _).
  assert (Hns : exists n, shape noise = [n; noise_dim]).
  { apply call_Some in Hg. destruct Hg as [(n & Hn) _].
    exists n. rewrite Hn. f_equal.
    specialize (HG n). unfold model_call_shape in HG.
    destruct (shape_eqb [noise_dim] (model_input_shape G)) eqn:He;
      [|discriminate].
    apply shape_eqb_eq in He. symmetry. exact He. }
  destruct Hns as (n & Hns).
  pose proof (call_shape_spec G true noise w Hns) as Hg'.
  rewrite HG in Hg'. destruct Hg' as (g' & w3' & Hg' & Hgs).
  rewrite Hg in Hg'. inversion Hg'; subst g' w3'.
  pose proof (call_shape_spec D true g w4 Hgs) as Hf'.
  rewrite HD in Hf'. rewrite Hf in Hf'. discriminate.
Qed.

(** And so does the step. *)
Lemma train_step_raises (images : tensor) (w : world) (sg : list N) :
  (forall n, model_call_shape n G [noise_dim] = Some sg) ->
  (forall n, model_call_shape n D sg = None) ->
  train_step G D images w = None.
Proof.
  intros HG HD.
  destruct (train_step G D images w) as [[l w']|] eqn:H; [|reflexivity].
  exfalso. apply train_step_Some in H.
  destruct H as (n & s & noise & w0 & w1 & w2 & _ & _ & Hf & _).
  rewrite (forward_raises images noise w0 HG HD) in Hf. discriminate.
Qed.

(** The two losses of a step that returns, in terms of its forward
    passes. *)
Lemma train_step_losses_inv (images : tensor) (w w' : world)
    (gen_loss disc_loss : R) :
  train_step G D images w = Some ((gen_loss, disc_loss), w') ->
  exists noise real_output fake_output,
    forward_passes G D images w noise real_output fake_output
    /\ gen_loss = cross_entropy (ones_like fake_output) fake_output
    /\ disc_loss
       = (cross_entropy (ones_like real_output) real_output
          + cross_entropy (zeros_like fake_output) fake_output)%R.
Proof.
  intros H. apply train_step_Some in H.
  destruct H as (n & s & noise & w0 & w1 & w2 & Hs & Hn & Hf & _).
  apply forward_Some in Hf.
  destruct Hf as (g & w3 & r & w4 & f & Hg & Hr & Hf & Hl).
  inversion Hl; subst.
  exists noise, r, f. split; [|split; reflexivity].
  exists n, s, w0, g, w3, w4, w1. repeat split; assumption.
Qed.

(** C7: the discriminator loss a step returns is never negative. *)
Theorem train_step_discriminator_loss_nonneg (images : tensor) (w w' : world)
    (gen_loss disc_loss : R) :
  train_step G D images w = Some ((gen_loss, disc_loss), w') ->
  (0 <= disc_loss)%R.
Proof.
  intros H.
  destruct (train_step_losses_inv _ _ H) as (noise & r & f & _ & _ & ->).
  pose proof (cross_entropy_constant_nonneg r (or_intror eq_refl)) as H1.
  pose proof (cross_entropy_constant_nonneg f (or_introl eq_refl)) as H0.
  unfold ones_like, zeros_like. lra.
Qed.

(** C6: with the two optimizer applications in the other order the step
    returns the same two losses, and raises in the same cases. *)
Theorem train_step_order_independent (images : tensor) (w : world) :
  option_map fst (train_step_swapped G D images w)
  = option_map fst (train_step G D images w).
Proof.
  rewrite train_step_swapped_losses, train_step_losses. reflexivity.
Qed.

End StepTheorems.

(** X1: with the notebook's own two models every step raises, on every
    batch and in every state of the weights, the optimizers and the random
    generator: the generator produces 32 by 32 images and the discriminator
    was built for 64 by 64 ones. *)
Lemma notebook_train_step_raises {B : Backend} (images : tensor)
    (w : world) :
  train_step generator discriminator images w = None.
Proof.
  exact (train_step_raises generator discriminator images w
           generator_call_shape discriminator_rejects_generated).
Qed.

Lemma small_models_built :
  trainable_variables small_generator = [0; 1; 2; 5]
  /\ non_trainable_variables small_generator = [3; 4]
  /\ trainable_variables small_discriminator = [6; 7; 8; 9].
Proof. vm_compute. repeat split; reflexivity. Qed.

Lemma small_models_fit :
  model_call_shape 2 small_generator [noise_dim] = Some [2; 2; 3]%N
  /\ model_call_shape 2 small_discriminator [2; 2; 3]%N = Some [1]%N.
Proof. vm_compute. split; reflexivity. Qed.

Lemma small_step_returns :
  exists l w',
    train_step small_generator small_discriminator small_images start_world
    = Some (l, w').
Proof.
  destruct small_models_fit as [HG HD].
  exact (train_step_returns small_generator small_discriminator
           small_images start_world eq_refl HG HD HD eq_refl eq_refl).
Qed.

(** ** float32 rounding *)

Local Open Scope R_scope.

Lemma pow2_pos (e : Z) : 0 < powerRZ 2 e.
Proof. apply powerRZ_lt. lra. Qed.

Lemma pow2_add (a b : Z) : powerRZ 2 (a + b) = powerRZ 2 a * powerRZ 2 b.
Proof. apply powerRZ_add. lra. Qed.

Lemma pow2_le (a b : Z) : (a <= b)%Z -> powerRZ 2 a <= powerRZ 2 b.
Proof.
  intros H. replace b with (a + Z.of_nat (Z.to_nat (b - a)))%Z by lia.
  rewrite pow2_add, <- pow_powerRZ.
  pose proof (pow2_pos a) as Ha.
  pose proof (pow_R1_Rle 2 (Z.to_nat (b - a)) ltac:(lra)) as H1.
  rewrite <- (Rmult_1_r (powerRZ 2 a)) at 1.
  apply Rmult_le_compat_l; lra.
Qed.

Lemma pow2_lt_inv (a b : Z) : powerRZ 2 a < powerRZ 2 b -> (a < b)%Z.
Proof.
  intros H. destruct (Z_lt_le_dec a b) as [Hl|Hg]; [exact Hl|].
  pose proof (pow2_le Hg). lra.
Qed.

Lemma Rabs_le_inv (a b : R) : Rabs a <= b -> - b <= a <= b.
Proof. unfold Rabs. destruct (Rcase_abs a); lra. Qed.

Lemma round_half_even_error (y : R) :
  Rabs (IZR (round_half_even y) - y) <= 1 / 2.
Proof.
  unfold round_half_even.
  destruct (base_Int_part y) as [Hl Hu].
  set (k := Int_part y) in *.
  destruct (Rlt_dec (y - IZR k) (1 / 2)) as [H1|H1].
  - apply Rabs_le. lra.
  - destruct (Rlt_dec (1 / 2) (y - IZR k)) as [H2|H2].
    + rewrite plus_IZR. apply Rabs_le. lra.
    + destruct (Z.even k); [|rewrite plus_IZR]; apply Rabs_le; lra.
Qed.

Lemma round_half_even_unique (y : R) (k : Z) :
  Rabs (y - IZR k) < 1 / 2 -> round_half_even y = k.
Proof.
  intros H. pose proof (round_half_even_error y) as He.
  apply Rabs_def2 in H. apply Rabs_le_inv in He.
  set (r := round_half_even y) in *.
  assert (H1 : IZR (r - k) < IZR 1) by (rewrite minus_IZR; lra).
  assert (H2 : IZR (-1) < IZR (r - k)) by (rewrite minus_IZR; lra).
  apply lt_IZR in H1, H2. lia.
Qed.

Lemma round_half_even_IZR (k : Z) : round_half_even (IZR k) = k.
Proof.
  apply round_half_even_unique.
  replace (IZR k - IZR k) with 0 by lra. rewrite Rabs_R0. lra.
Qed.

Lemma round_half_even_between (y : R) (a b : Z) :
  IZR a <= y <= IZR b -> (a <= round_half_even y <= b)%Z.
Proof.
  intros [Ha Hb]. pose proof (round_half_even_error y) as He.
  apply Rabs_le_inv in He. set (r := round_half_even y) in *.
  assert (H1 : IZR (a - 1) < IZR r) by (rewrite minus_IZR; lra).
  assert (H2 : IZR r < IZR (b + 1)) by (rewrite plus_IZR; lra).
  apply lt_IZR in H1, H2. lia.
Qed.

Lemma exponent_from_range (fuel : nat) :
  forall e x, (e <= exponent_from fuel e x <= e + Z.of_nat fuel)%Z.
Proof.
  induction fuel as [|fuel IH]; intros e x; simpl exponent_from.
  - lia.
  - destruct (Rlt_dec (Rabs x) (powerRZ 2 e)); [lia|].
    specialize (IH (e + 1)%Z x). lia.
Qed.

Lemma exponent_from_above (fuel : nat) :
  forall e x, Rabs x < powerRZ 2 (e + Z.of_nat fuel) ->
  Rabs x < powerRZ 2 (exponent_from fuel e x).
Proof.
  induction fuel as [|fuel IH]; intros e x H; simpl exponent_from.
  - replace (e + Z.of_nat 0)%Z with e in H by lia. exact H.
  - destruct (Rlt_dec (Rabs x) (powerRZ 2 e)) as [Hl|_]; [exact Hl|].
    apply IH. replace (e + 1 + Z.of_nat fuel)%Z with (e + Z.of_nat (S fuel))%Z
      by lia. exact H.
Qed.

Lemma exponent_from_le (fuel : nat) :
  forall e j x, (e <= j)%Z -> Rabs x < powerRZ 2 j ->
  (exponent_from fuel e x <= j)%Z.
Proof.
  induction fuel as [|fuel IH]; intros e j x He H; simpl exponent_from.
  - exact He.
  - destruct (Rlt_dec (Rabs x) (powerRZ 2 e)) as [_|Hn]; [exact He|].
    apply IH; [|exact H].
    assert (Hlt : powerRZ 2 e < powerRZ 2 j) by lra.
    apply pow2_lt_inv in Hlt. lia.
Qed.

Lemma exponent_from_below (fuel : nat) :
  forall e x, exponent_from fuel e x = e
              \/ powerRZ 2 (exponent_from fuel e x - 1) <= Rabs x.
Proof.
  induction fuel as [|fuel IH]; intros e x; simpl exponent_from.
  - left. reflexivity.
  - destruct (Rlt_dec (Rabs x) (powerRZ 2 e)) as [_|Hn]; [left; reflexivity|].
    right. destruct (IH (e + 1)%Z x) as [-> | H]; [|exact H].
    replace (e + 1 - 1)%Z with e by lia. lra.
Qed.

(** The exponent of a number of a known binade. *)
Lemma exponent_eq (x : R) (e : Z) :
  (-125 <= e <= 128)%Z ->
  (e = (-125)%Z \/ powerRZ 2 (e - 1) <= Rabs x) ->
  Rabs x < powerRZ 2 e ->
  exponent x = e.
Proof.
  intros He Hlow Hup. unfold exponent.
  pose proof (exponent_from_range 253 (-125) x) as Hr.
  pose proof (@exponent_from_le 253 (-125) e x (proj1 He) Hup) as Hle.
  destruct Hlow as [-> | Hlow]; [lia|].
  assert (Hx : Rabs x < powerRZ 2 (exponent_from 253 (-125) x)).
  { apply exponent_from_above.
    apply Rlt_le_trans with (powerRZ 2 e); [exact Hup|].
    apply pow2_le. simpl Z.of_nat. lia. }
  assert (Hlt : powerRZ 2 (e - 1) < powerRZ 2 (exponent_from 253 (-125) x))
    by lra.
  apply pow2_lt_inv in Hlt. lia.
Qed.

Lemma exponent_le (x : R) (j : Z) :
  (-125 <= j)%Z -> Rabs x < powerRZ 2 j -> (-125 <= exponent x <= j)%Z.
Proof.
  intros Hj H. unfold exponent. split.
  - apply exponent_from_range.
  - apply exponent_from_le; assumption.
Qed.

Lemma float32_eval (x : R) (e k : Z) :
  (-125 <= e <= 128)%Z ->
  (e = (-125)%Z \/ powerRZ 2 (e - 1) <= Rabs x) ->
  Rabs x < powerRZ 2 e ->
  Rabs (x / powerRZ 2 (e - 24) - IZR k) < 1 / 2 ->
  float32 x = IZR k * powerRZ 2 (e - 24).
Proof.
  intros He Hlow Hup Hk. unfold float32.
  rewrite (exponent_eq x He Hlow Hup).
  rewrite (round_half_even_unique _ k Hk). reflexivity.
Qed.


Lemma float32_nonneg (x : R) : 0 <= x -> 0 <= float32 x.
Proof.
  intros Hx. unfold float32. set (u := powerRZ 2 (exponent x - 24)).
  assert (Hu : 0 < u) by apply pow2_pos.
  apply Rmult_le_pos; [|lra].
  pose proof (round_half_even_error (x / u)) as Hr.
  apply Rabs_le_inv in Hr.
  assert (Hq : 0 <= x / u).
  { apply Rmult_le_pos; [exact Hx|]. left. apply Rinv_0_lt_compat. exact Hu. }
  assert (H1 : IZR (-1) < IZR (round_half_even (x / u))) by lra.
  apply lt_IZR in H1. apply IZR_le. lia.
Qed.

Lemma float32_pow2_bound (x : R) (j : Z) :
  (-125 <= j <= 127)%Z -> Rabs x <= powerRZ 2 j ->
  Rabs (float32 x) <= powerRZ 2 j.
Proof.
  intros Hj [Hlt|Heq].
  - destruct (exponent_le x (proj1 Hj) Hlt) as [Hlo He].
    assert (Hx : Rabs x < powerRZ 2 (exponent x)).
    { unfold exponent. apply exponent_from_above.
      apply Rlt_le_trans with (powerRZ 2 j); [exact Hlt|].
      apply pow2_le. simpl Z.of_nat. lia. }
    unfold float32. set (e := exponent x) in *.
    set (u := powerRZ 2 (e - 24)).
    assert (Hu : 0 < u) by apply pow2_pos.
    assert (He24 : powerRZ 2 e = 16777216 * u).
    { unfold u. replace e with (24 + (e - 24))%Z at 1 by lia.
      rewrite pow2_add. simpl. lra. }
    assert (Hq : IZR (-16777216) <= x / u <= IZR 16777216).
    { apply Rabs_def2 in Hx. destruct Hx as [H1 H2]. rewrite He24 in H1, H2.
      split.
      - apply Rmult_le_reg_r with u; [exact Hu|].
        unfold Rdiv. rewrite Rmult_assoc, Rinv_l by lra. lra.
      - apply Rmult_le_reg_r with u; [exact Hu|].
        unfold Rdiv. rewrite Rmult_assoc, Rinv_l by lra. lra. }
    apply round_half_even_between in Hq.
    rewrite Rabs_mult, (Rabs_right u) by lra.
    apply Rle_trans with (powerRZ 2 e); [|apply pow2_le; exact He].
    rewrite He24. apply Rmult_le_compat_r; [lra|].
    destruct Hq as [Hq1 Hq2]. apply IZR_le in Hq1, Hq2.
    apply Rabs_le. lra.
  - assert (He : exponent x = (j + 1)%Z).
    { apply exponent_eq; [lia| |].
      - right. replace (j + 1 - 1)%Z with j by lia. lra.
      - rewrite Heq, pow2_add. pose proof (pow2_pos j). simpl. lra. }
    unfold float32. rewrite He. set (u := powerRZ 2 (j + 1 - 24)).
    assert (Hu : 0 < u) by apply pow2_pos.
    assert (Hj23 : powerRZ 2 j = 8388608 * u).
    { unfold u. replace j with (23 + (j + 1 - 24))%Z at 1 by lia.
      rewrite pow2_add. simpl. lra. }
    rewrite Hj23 in *.
    unfold Rabs in Heq. destruct (Rcase_abs x) as [Hn|Hp].
    + replace (x / u) with (IZR (-8388608)) by (field_simplify_eq; lra).
      rewrite round_half_even_IZR. apply Rabs_le. lra.
    + replace (x / u) with (IZR 8388608) by (field_simplify_eq; lra).
      rewrite round_half_even_IZR. apply Rabs_le. lra.
Qed.

Lemma float32_between (x : R) (j : Z) :
  (-125 <= j <= 127)%Z -> 0 <= x <= powerRZ 2 j ->
  0 <= float32 x <= powerRZ 2 j.
Proof.
  intros Hj [H0 H1]. split; [apply float32_nonneg; exact H0|].
  pose proof (@float32_pow2_bound x j Hj) as H.
  rewrite Rabs_pos_eq in H by exact H0. specialize (H H1).
  apply Rabs_le_inv in H. lra.
Qed.

(** ** The bytes of a pixel *)

Lemma Rtrunc_floor (x : R) :
  0 <= x -> Rtrunc x = Int_part x /\ (0 <= Int_part x)%Z.
Proof.
  intros Hx. unfold Rtrunc. destruct (Rle_dec 0 x) as [_|Hn]; [|lra].
  split; [reflexivity|].
  destruct (base_Int_part x) as [_ Hu].
  assert (H : IZR (-1) < IZR (Int_part x)) by lra.
  apply lt_IZR in H. lia.
Qed.



(** The conversion drops the fraction: the entry 0 is rescaled to 127.5
    exactly and stored as 127. *)
Lemma quantize_zero : quantize 0 = 127%Z.
Proof.
  unfold quantize, uint8_of_float, rescale.
  assert (H1 : float32 (0 + 1) = IZR 8388608 * powerRZ 2 (1 - 24)).
  { apply float32_eval; [lia| | |].
    - right. simpl. rewrite Rabs_pos_eq by lra. lra.
    - simpl. rewrite Rabs_pos_eq by lra. lra.
    - simpl. apply Rabs_def1; lra. }
  rewrite H1.
  assert (H2 : float32 (IZR 8388608 * powerRZ 2 (1 - 24) / 2)
               = IZR 8388608 * powerRZ 2 (0 - 24)).
  { apply float32_eval; [lia| | |].
    - right. simpl. rewrite Rabs_pos_eq by lra. lra.
    - simpl. rewrite Rabs_pos_eq by lra. lra.
    - simpl. apply Rabs_def1; lra. }
  rewrite H2.
  assert (H3 : float32 (IZR 8388608 * powerRZ 2 (0 - 24) * 255)
               = IZR 16711680 * powerRZ 2 (7 - 24)).
  { apply float32_eval; [lia| | |].
    - right. simpl. rewrite Rabs_pos_eq by lra. lra.
    - simpl. rewrite Rabs_pos_eq by lra. lra.
    - simpl. apply Rabs_def1; lra. }
  rewrite H3.
  assert (H : Rtrunc (IZR 16711680 * powerRZ 2 (7 - 24)) = 127%Z).
  { destruct (Rtrunc_floor (x := IZR 16711680 * powerRZ 2 (7 - 24)))
      as [-> _]; [simpl; lra|].
    symmetry. apply Int_part_spec. simpl. lra. }
  rewrite H. reflexivity.
Qed.

Lemma tanh_bounds (x : R) : -1 < tanh x < 1.
Proof.
  unfold tanh, sinh, cosh.
  pose proof (exp_pos x) as Ha. pose proof (exp_pos (- x)) as Hb.
  set (a := exp x) in *. set (b := exp (- x)) in *.
  replace ((a - b) / 2 / ((a + b) / 2)) with ((a - b) / (a + b))
    by (field; lra).
  split; apply Rmult_lt_reg_r with (a + b); try lra;
    unfold Rdiv; rewrite Rmult_assoc, Rinv_l by lra; lra.
Qed.

(** What a transposed convolution with the [tanh] activation returns lies
    in [[-1, 1]]. *)
Lemma call_tanh_layer_bounded {B : Backend} (l : built_layer)
    (training : bool) (x y : tensor) (w w' : world) :
  (exists f k st p b, config l = Conv2DTranspose f k st p b tanh_act) ->
  call_layer l training x w = Some (y, w') ->
  Forall (fun p => -1 <= p <= 1) (data y).
Proof.
  intros (f & k & st & p & b & Hc). unfold call_layer.
  destruct (shape x) as [|n s]; [discriminate|].
  destruct (accepts l s); [|discriminate].
  destruct (compute_output_shape (config l) s) as [s'|]; [|discriminate].
  rewrite Hc. intros H. inversion H; subst; simpl.
  apply Forall_forall. intros q Hq.
  apply in_map_iff in Hq. destruct Hq as (u & <- & _).
  pose proof (tanh_bounds u). simpl. lra.
Qed.

Lemma call_layers_app {B : Backend} (ls1 ls2 : list built_layer)
    (training : bool) :
  forall (x y : tensor) (w w' : world),
  call_layers (ls1 ++ ls2) training x w = Some (y, w') ->
  exists x1 w1, call_layers ls1 training x w = Some (x1, w1)
                /\ call_layers ls2 training x1 w1 = Some (y, w').
Proof.
  induction ls1 as [|l ls1 IH]; intros x y w w' H; simpl in H.
  - exists x, w. split; [reflexivity|exact H].
  - bind_inv H as x0 w0 H0.
    destruct (IH _ _ _ _ H) as (x1 & w1 & H1 & H2).
    exists x1, w1. split; [|exact H2].
    simpl. unfold bind. rewrite H0. exact H1.
Qed.

(** What the notebook's generator returns is what its last layer, the
    transposed convolution with [tanh], returns. *)
Lemma generator_last_layer {B : Backend} (noise g : tensor)
    (training : bool) (w w' : world) :
  call generator noise training w = Some (g, w') ->
  exists l x1 w1,
    config l = Conv2DTranspose 3 (5, 5)%N (1, 1)%N same false tanh_act
    /\ call_layer l training x1 w1 = Some (g, w').
Proof.
  intros H. apply call_Some in H. destruct H as [_ H].
  assert (Hl : exists ls l,
             layers generator = ls ++ [l]
             /\ config l = Conv2DTranspose 3 (5, 5)%N (1, 1)%N same false
                             tanh_act).
  { exists (removelast (layers generator)),
           (last (layers generator) (mk_built_layer Flatten [] [] [])).
    split; [|vm_compute; reflexivity].
    apply app_removelast_last. vm_compute. discriminate. }
  destruct Hl as (ls & l & Hls & Hc). rewrite Hls in H.
  apply call_layers_app in H. destruct H as (x1 & w1 & _ & H).
  simpl in H. bind_inv H as y w2 Hy. inversion H; subst.
  exists l, x1, w1. split; [exact Hc|exact Hy].
Qed.

(** Every entry the notebook's generator returns lies in [[-1, 1]]: its last
    layer applies [tanh]. *)
Lemma generator_output_bounded {B : Backend} (noise g : tensor)
    (training : bool) (w w' : world) :
  call generator noise training w = Some (g, w') ->
  Forall (fun p => -1 <= p <= 1) (data g).
Proof.
  intros H. destruct (generator_last_layer _ _ _ H) as (l & x1 & w1 & Hc & Hy).
  eapply call_tanh_layer_bounded; [|exact Hy].
  do 5 eexists. exact Hc.
Qed.

(** ** A generated entry whose byte is not the exact truncation *)






(** ** What the archive stores *)







Local Close Scope R_scope.

(** ** The theorems at work *)

Lemma package_writes_32_by_32_at_notebook_counts :
  exists z w',
    package generator num_images_to_generate batch_size start_world
    = Some (z, w')
    /\ Forall (rgb_entry 32 32) z.
Proof.
  destruct (@package_writes_32_by_32 zero_backend num_images_to_generate
              batch_size start_world) as (_ & z & w' & H & Hz & _).
  - unfold batch_size. lia.
  - exists z, w'. split; assumption.
Defined.

Lemma package_names_every_index_at_notebook_counts :
  exists z w',
    package generator num_images_to_generate batch_size start_world
    = Some (z, w')
    /\ map fst z = map img_name (seq 0 num_images_to_generate)
    /\ NoDup (map fst z)
    /\ length z = num_images_to_generate.
Proof.
  destruct (@package_names_every_index zero_backend num_images_to_generate
              batch_size) as (Hn & Hr).
  - unfold batch_size. lia.
  - vm_compute. reflexivity.
  - destruct (Hr start_world) as (z & w' & H).
    exists z, w'. split; [exact H|]. exact (Hn generator _ _ _ H).
Defined.

Lemma package_leaves_parameters_at_notebook_counts :
  exists z w',
    package generator num_images_to_generate batch_size start_world
    = Some (z, w')
    /\ variables w' = variables start_world
    /\ optimizer w' = optimizer start_world.
Proof.
  destruct (@package_generator_returns zero_backend num_images_to_generate
              batch_size start_world) as (z & w' & H & _).
  - unfold batch_size. lia.
  - exists z, w'. split; [exact H|].
    exact (package_leaves_parameters generator _ _ _ H).
Defined.

Lemma package_overshoots_at_250_by_100 :
  exists z w',
    package generator 250 100 start_world = Some (z, w')
    /\ map fst z = map img_name (seq 0 300)
    /\ length z = 300
    /\ 250 < length z
    /\ rng w' = 3.
Proof.
  destruct (@package_overshoots zero_backend 250 100) as (_ & _ & Hn & Hr).
  - lia.
  - vm_compute. discriminate.
  - destruct (Hr start_world) as (z & w' & H).
    exists z, w'. split; [exact H|]. exact (Hn generator _ _ _ H).
Defined.

Lemma train_step_discriminator_loss_nonneg_on_small_models :
  exists gen_loss disc_loss w',
    train_step small_generator small_discriminator small_images start_world
    = Some ((gen_loss, disc_loss), w')
    /\ (0 <= disc_loss)%R.
Proof.
  destruct small_step_returns as ([gen_loss disc_loss] & w' & H).
  exists gen_loss, disc_loss, w'.
  split; [exact H|].
  exact (train_step_discriminator_loss_nonneg _ _ _ _ H).
Defined.



(** * Further properties of the cells *)

(** ** The step with the notebook's own models *)

Section StepReturns.

Context {B : Backend}.

(** C3, as the code has it: on a batch of 64 by 64 colour images the step
    draws the noise, generates 32 by 32 images and scores the real images,
    one score each; the discriminator then refuses the generated images,
    so the step raises before the line of the two losses: no discriminator
    loss is computed. *)
Theorem train_step_returns_no_discriminator_loss (images : tensor)
    (w : world) (n : N) :
  shape images = [n; 64; 64; 3]%N -> (0 < n)%N ->
  exists noise w0 generated_images w1 real_output w2,
    random_normal [n; noise_dim] w = Some (noise, w0)
    /\ call generator noise true w0 = Some (generated_images, w1)
    /\ shape generated_images = [n; 32; 32; 3]%N
    /\ call discriminator images true w1 = Some (real_output, w2)
    /\ shape real_output = [n; 1]%N
    /\ call discriminator generated_images true w2 = None
    /\ train_step generator discriminator images w = None.
Proof.
  intros Hs Hn0.
  destruct (random_normal_returns [n; noise_dim] w) as (noise & Hn & Hns & _).
  set (w0 := mk_world (variables w) (optimizer w) (advance (rng w))) in *.
  pose proof (call_shape_spec generator true noise w0 Hns) as Hg.
  rewrite generator_call_shape in Hg. destruct Hg as (g & w1 & Hg & Hgs).
  pose proof (call_shape_spec discriminator true images w1 Hs) as Hr.
  rewrite discriminator_call_shape in Hr by lia.
  destruct Hr as (r & w2 & Hr & Hrs).
  pose proof (call_shape_spec discriminator true g w2 Hgs) as Hf.
  rewrite discriminator_rejects_generated in Hf.
  exists noise, w0, g, w1, r, w2. repeat split; try assumption.
  exact (train_step_raises generator discriminator images w
           generator_call_shape discriminator_rejects_generated).
Qed.

(** C4, as the code has it: whatever the noise, the weights and the mode,
    the generator returns 32 by 32 images and the discriminator refuses
    them in every state; [fake_output], the only argument of the generator
    loss, never exists. *)
Theorem generated_images_get_no_score (noise : tensor) (training : bool)
    (w : world) (n : N) :
  shape noise = [n; noise_dim] -> (0 < n)%N ->
  exists generated_images w1,
    call generator noise training w = Some (generated_images, w1)
    /\ shape generated_images = [n; 32; 32; 3]%N
    /\ forall (training' : bool) (w2 : world),
         call discriminator generated_images training' w2 = None.
Proof.
  intros Hs _.
  pose proof (call_shape_spec generator training noise w Hs) as Hg.
  rewrite generator_call_shape in Hg. destruct Hg as (g & w1 & Hg & Hgs).
  exists g, w1. split; [exact Hg|]. split; [exact Hgs|].
  intros training' w2.
  pose proof (call_shape_spec discriminator training' g w2 Hgs) as Hf.
  rewrite discriminator_rejects_generated in Hf. exact Hf.
Qed.


(** X9: on noise rows of [noise_dim] entries the notebook's generator
    returns, in training and at inference, one 32 by 32 colour image per
    row with every entry in [[-1, 1]]. *)
Theorem generator_returns_images (noise : tensor) (training : bool)
    (w : world) (n : N) :
  shape noise = [n; noise_dim] ->
  exists g w',
    call generator noise training w = Some (g, w')
    /\ shape g = [n; 32; 32; 3]%N
    /\ Forall (fun p => (-1 <= p <= 1)%R) (data g).
Proof.
  intros Hs.
  pose proof (call_shape_spec generator training noise w Hs) as Hg.
  rewrite generator_call_shape in Hg. destruct Hg as (g & w' & Hg & Hgs).
  exists g, w'. split; [exact Hg|]. split; [exact Hgs|].
  apply (@generator_output_bounded B noise g training w w'). exact Hg.
Qed.

(** X10: on a batch of at least one 64 by 64 colour image the notebook's
    discriminator returns, in training and at inference, one score per
    image; on an empty batch it raises. *)
Theorem discriminator_returns_scores (images : tensor) (training : bool)
    (w : world) (n : N) :
  shape images = [n; 64; 64; 3]%N ->
  if (0 <? n)%N
  then exists scores w',
         call discriminator images training w = Some (scores, w')
         /\ shape scores = [n; 1]%N
         /\ length (data scores) = N.to_nat n
  else call discriminator images training w = None.
Proof.
  intros Hs.
  pose proof (call_shape_spec discriminator training images w Hs) as Hr.
  destruct (N.ltb_spec 0 n) as [Hn|Hn].
  - rewrite discriminator_call_shape in Hr by lia.
    destruct Hr as (r & w' & Hr & Hrs).
    exists r, w'. split; [exact Hr|]. split; [exact Hrs|].
    assert (Hl : exists ls l,
               layers discriminator = ls ++ [l] /\ config l = Dense 1 true).
    { exists (removelast (layers discriminator)),
             (last (layers discriminator) (mk_built_layer Flatten [] [] [])).
      split; [|vm_compute; reflexivity].
      apply app_removelast_last. vm_compute. discriminate. }
    destruct Hl as (ls & l & Hls & Hc).
    apply call_Some in Hr. destruct Hr as [_ Hr]. rewrite Hls in Hr.
    apply call_layers_app in Hr. destruct Hr as (x1 & w1 & _ & Hr).
    simpl in Hr. bind_inv Hr as y w2 Hy. inversion Hr; subst y w2.
    unfold call_layer in Hy.
    destruct (shape x1) as [|n1 s1]; [discriminate|].
    destruct (accepts l s1); [|discriminate].
    destruct (compute_output_shape (config l) s1) as [s'|]; [|discriminate].
    rewrite Hc in Hy. inversion Hy; subst r. simpl in *.
    rewrite length_map, tabulate_length. inversion Hrs; subst.
    f_equal. simpl. lia.
  - assert (n = 0%N) by lia. subst n.
    assert (Hc : model_call_shape 0 discriminator [64; 64; 3]%N = None)
      by (vm_compute; reflexivity).
    rewrite Hc in Hr. exact Hr.
Qed.

End StepReturns.

(** ** Building a model *)

(** The variables of the layers of a model under construction are the
    numbers from [next] up to the counter it ends with. *)
Lemma add_layers_variables (ls : list layer) :
  forall next s bs next',
  add_layers next s ls = Some (bs, next') ->
  next <= next'
  /\ flat_map (fun l => trainable_weights l ++ non_trainable_weights l) bs
     = seq next (next' - next).
Proof.
  induction ls as [|l ls IH]; intros next s bs next' H; simpl in H.
  - inversion H; subst. rewrite Nat.sub_diag. split; [lia|reflexivity].
  - destruct (compute_output_shape l s) as [s'|]; [|discriminate].
    destruct (add_layers _ s' ls) as [[bs' n']|] eqn:Ha; [|discriminate].
    inversion H; subst. destruct (IH _ _ _ _ Ha) as (Hle & Hv).
    split; [lia|]. simpl. rewrite Hv.
    set (nt := length (fst (weight_shapes l s))) in *.
    set (nn := length (snd (weight_shapes l s))) in *.
    replace (next' - next) with (nt + (nn + (next' - (next + nt + nn))))
      by lia.
    rewrite !seq_app, <- app_assoc. reflexivity.
Qed.

Lemma model_variables_layers (m : Sequential) :
  Permutation.Permutation (model_variables m)
    (flat_map (fun l => trainable_weights l ++ non_trainable_weights l)
       (layers m)).
Proof.
  unfold model_variables, trainable_variables, non_trainable_variables.
  induction (layers m) as [|l bs IH]; simpl; [constructor|].
  rewrite <- !app_assoc. apply Permutation.Permutation_app_head.
  etransitivity; [apply Permutation.Permutation_app_swap_app|].
  apply Permutation.Permutation_app_head. exact IH.
Qed.

Lemma model_variables_built (m : Sequential) (v : var) :
  In v (model_variables m)
  <-> In v (flat_map (fun l => trainable_weights l ++ non_trainable_weights l)
              (layers m)).
Proof.
  unfold model_variables, trainable_variables, non_trainable_variables.
  rewrite in_app_iff, !in_flat_map. split.
  - intros [(l & Hl & Hv)|(l & Hl & Hv)]; exists l;
      (split; [exact Hl|]); apply in_app_iff; [left|right]; exact Hv.
  - intros (l & Hl & Hv). apply in_app_iff in Hv.
    destruct Hv as [Hv|Hv]; [left|right]; exists l; split; assumption.
Qed.

(** X5: two models built one after the other, the second from the counter
    the first ended with, share no variable; and no variable is held twice
    within a model. *)
Theorem built_models_share_no_variable (next1 next2 next3 : nat)
    (s1 s2 : list N) (ls1 ls2 : list layer) (m1 m2 : Sequential) :
  build next1 s1 ls1 = Some (m1, next2) ->
  build next2 s2 ls2 = Some (m2, next3) ->
  NoDup (model_variables m1)
  /\ NoDup (model_variables m2)
  /\ forall v, In v (model_variables m1) -> ~ In v (model_variables m2).
Proof.
  unfold build. intros H1 H2.
  destruct (add_layers next1 s1 ls1) as [[bs1 n1]|] eqn:Ha1; [|discriminate].
  destruct (add_layers next2 s2 ls2) as [[bs2 n2]|] eqn:Ha2; [|discriminate].
  inversion H1; subst. inversion H2; subst.
  destruct (add_layers_variables _ _ _ Ha1) as (Hle1 & Hv1).
  destruct (add_layers_variables _ _ _ Ha2) as (Hle2 & Hv2).
  assert (Hin1 : forall v, In v (model_variables (mk_Sequential s1 bs1))
                           -> next1 <= v < next2).
  { intros v Hv. apply model_variables_built in Hv. simpl in Hv.
    rewrite Hv1 in Hv. apply in_seq in Hv. lia. }
  assert (Hin2 : forall v, In v (model_variables (mk_Sequential s2 bs2))
                           -> next2 <= v < next3).
  { intros v Hv. apply model_variables_built in Hv. simpl in Hv.
    rewrite Hv2 in Hv. apply in_seq in Hv. lia. }
  assert (Hnd : forall s bs a b,
             flat_map (fun l => trainable_weights l ++ non_trainable_weights l)
               bs = seq a b ->
             NoDup (model_variables (mk_Sequential s bs))).
  { intros s bs a b Hv.
    eapply Permutation.Permutation_NoDup;
      [apply Permutation.Permutation_sym, model_variables_layers|].
    simpl. rewrite Hv. apply seq_NoDup. }
  split; [exact (Hnd _ _ _ _ Hv1)|]. split; [exact (Hnd _ _ _ _ Hv2)|].
  intros v Hv Hv'. apply Hin1 in Hv. apply Hin2 in Hv'. lia.
Qed.

(** ** What a step writes *)

Section StepWrites.

Context {B : Backend}.

Lemma assign_all_writes (vts : list (var * tensor)) :
  forall w w', assign_all vts w = Some (tt, w') ->
  writes_variables (map fst vts) w w'.
Proof.
  induction vts as [|[v t] vts IH]; intros w w' H; simpl in H.
  - inversion H; subst. split; [intros; reflexivity|reflexivity].
  - bind_inv H as u w1 H1. inversion H1; subst. clear H1.
    apply IH in H. destruct H as (Hv & Ho). split; [|exact Ho].
    intros x Hx. simpl in Hx. rewrite Hv by tauto. simpl.
    destruct (Nat.eqb_spec x v) as [->|_]; [tauto|reflexivity].
Qed.

Lemma call_layer_writes (l : built_layer) (training : bool) (x y : tensor)
    (w w' : world) :
  call_layer l training x w = Some (y, w') ->
  writes_variables (non_trainable_weights l) w w'.
Proof.
  unfold call_layer.
  destruct (shape x) as [|n s]; [discriminate|].
  destruct (accepts l s); [|discriminate].
  destruct (compute_output_shape (config l) s) as [s'|]; [|discriminate].
  assert (Hsame : forall u : world, writes_variables (non_trainable_weights l) u u)
    by (intros u; split; [intros; reflexivity|reflexivity]).
  destruct (config l) as [u b| | |t|f k st p b a|f k st p|rate|]; intros H;
    try (destruct (n =? 0)%N; [discriminate|]);
    try (inversion H; subst; apply Hsame).
  - bind_inv H as ws w1 H1. inversion H1; subst. clear H1.
    bind_inv H as [] w2 H2. inversion H; subst. clear H.
    unfold update_moving_statistics in H2. destruct training.
    + bind_inv H2 as moving w3 H3. inversion H3; subst. clear H3.
      apply assign_all_writes in H2. destruct H2 as (Hv & Ho).
      split; [|exact Ho]. intros v Hin. apply Hv. intros Hc. apply Hin.
      apply in_map_iff in Hc. destruct Hc as ([v0 t0] & <- & Hc).
      exact (in_combine_l _ _ _ _ Hc).
    + inversion H2; subst. apply Hsame.
  - bind_inv H as d w1 Hd. inversion H; subst. clear H.
    unfold dropout in Hd. destruct training; inversion Hd; subst;
      split; intros; reflexivity.
Qed.

Lemma call_layers_writes (ls : list built_layer) (training : bool) :
  forall (x y : tensor) (w w' : world),
  call_layers ls training x w = Some (y, w') ->
  writes_variables (flat_map non_trainable_weights ls) w w'.
Proof.
  induction ls as [|l ls IH]; intros x y w w' H; simpl in H.
  - inversion H; subst. split; intros; reflexivity.
  - bind_inv H as x1 w1 H1. apply call_layer_writes in H1.
    apply IH in H. destruct H1 as (Hv1 & Ho1). destruct H as (Hv & Ho).
    split; [|rewrite Ho; exact Ho1].
    intros v Hin. simpl in Hin. rewrite in_app_iff in Hin.
    rewrite Hv, Hv1 by tauto. reflexivity.
Qed.

(** X6: a call of a model, even in training mode, writes nothing but the
    model's own non-trainable variables (the moving statistics of its batch
    normalisations): no trainable variable, no variable of another model
    and no optimizer state changes; at inference the whole world, random
    generator included, stays as it is. *)
Theorem call_writes_only_moving_statistics (m : Sequential) (x y : tensor)
    (training : bool) (w w' : world) :
  call m x training w = Some (y, w') ->
  (forall v, ~ In v (non_trainable_variables m) ->
             variables w' v = variables w v)
  /\ optimizer w' = optimizer w
  /\ (training = false -> w' = w).
Proof.
  intros H. pose proof H as H'. apply call_Some in H'.
  destruct H' as [_ H'].
  apply call_layers_writes in H'. destruct H' as (Hv & Ho).
  split; [exact Hv|]. split; [exact Ho|].
  intros ->. eapply call_inference_silent. exact H.
Qed.

Lemma forward_writes (G D : Sequential) (images noise : tensor)
    (w w' : world) (l : R * R) :
  forward G D images noise w = Some (l, w') ->
  writes_variables (non_trainable_variables G ++ non_trainable_variables D)
    w w'.
Proof.
  intros H. apply forward_Some in H.
  destruct H as (g & w1 & r & w2 & f & Hg & Hr & Hf & _).
  apply call_Some in Hg, Hr, Hf.
  destruct Hg as [_ Hg], Hr as [_ Hr], Hf as [_ Hf].
  apply call_layers_writes in Hg, Hr, Hf.
  destruct Hg as (Hv1 & Ho1), Hr as (Hv2 & Ho2), Hf as (Hv3 & Ho3).
  split; [|rewrite Ho3, Ho2; exact Ho1].
  intros v Hin. rewrite in_app_iff in Hin.
  unfold non_trainable_variables in Hin.
  rewrite Hv3, Hv2, Hv1 by tauto. reflexivity.
Qed.

(** X7: a step that returns changes no variable outside the two models:
    whatever else lives in the variable store keeps its value. *)
Theorem train_step_writes_only_the_models (G D : Sequential)
    (images : tensor) (w w' : world) (l : R * R) :
  train_step G D images w = Some (l, w') ->
  forall v, ~ In v (model_variables G) -> ~ In v (model_variables D) ->
            variables w' v = variables w v.
Proof.
  intros H v HG HD. apply train_step_Some in H.
  destruct H as (n & s & noise & w0 & w1 & w2 & _ & Hn & Hf & Hg & Hd).
  apply apply_gradients_writes in Hg, Hd.
  destruct Hg as (Hg' & _), Hd as (Hd' & _).
  apply forward_writes in Hf. destruct Hf as (Hf & _).
  unfold model_variables in HG, HD. rewrite in_app_iff in HG, HD.
  rewrite Hd', Hg', Hf by (try rewrite in_app_iff; tauto).
  inversion Hn; subst. reflexivity.
Qed.

End StepWrites.

(** ** The optimizers' counters *)

Section StepCounters.

Context {B : Backend}.

Lemma adam_updates_schedule (name : optimizer_name)
    (grads_and_vars : list (tensor * var)) :
  forall w w', adam_updates name grads_and_vars w = Some (tt, w') ->
  forall n, learning_rate (optimizer w' n) = learning_rate (optimizer w n)
            /\ iterations (optimizer w' n) = iterations (optimizer w n).
Proof.
  induction grads_and_vars as [|[g v] rest IH]; intros w w' H n; simpl in H.
  - inversion H; subst. split; reflexivity.
  - bind_inv H as u w1 H1. destruct (IH _ _ H n) as (Hl & Hi).
    rewrite Hl, Hi. unfold adam_update in H1. inversion H1; subst. simpl.
    destruct n, name; split; reflexivity.
Qed.

Lemma apply_gradients_schedule (name : optimizer_name)
    (grads_and_vars : list (tensor * var)) (w w' : world) :
  grads_and_vars <> [] ->
  apply_gradients name grads_and_vars w = Some (tt, w') ->
  (forall n, learning_rate (optimizer w' n) = learning_rate (optimizer w n))
  /\ iterations (optimizer w' name) = S (iterations (optimizer w name))
  /\ (forall n, n <> name ->
                iterations (optimizer w' n) = iterations (optimizer w n)).
Proof.
  unfold apply_gradients. intros Hne H.
  destruct grads_and_vars as [|gv rest] eqn:Hgv; [contradiction|].
  rewrite <- Hgv in *. clear Hgv Hne.
  bind_inv H as u w1 H1. destruct u.
  pose proof (adam_updates_schedule _ _ _ H1) as Hs.
  unfold count_step in H. inversion H; subst. simpl. repeat split.
  - intros n. rewrite <- (proj1 (Hs n)). destruct n, name; reflexivity.
  - rewrite <- (proj2 (Hs name)). destruct name; reflexivity.
  - intros n Hn. rewrite <- (proj2 (Hs n)).
    destruct n, name; try reflexivity; contradiction.
Qed.

(** X8: a step of two models that both have trainable variables, when it
    returns, advances the step counter of each of the two optimizers by
    exactly one and leaves both learning rates as they were. *)
Theorem train_step_counts_one_step (G D : Sequential) (images : tensor)
    (w w' : world) (l : R * R) :
  trainable_variables G <> [] ->
  trainable_variables D <> [] ->
  train_step G D images w = Some (l, w') ->
  forall name,
    iterations (optimizer w' name) = S (iterations (optimizer w name))
    /\ learning_rate (optimizer w' name) = learning_rate (optimizer w name).
Proof.
  intros HGne HDne H name. apply train_step_Some in H.
  destruct H as (n & s & noise & w0 & w1 & w2 & _ & Hn & Hf & Hg & Hd).
  apply apply_gradients_schedule in Hg;
    [|unfold tape_gradient; destruct (trainable_variables G);
      [contradiction|discriminate]].
  apply apply_gradients_schedule in Hd;
    [|unfold tape_gradient; destruct (trainable_variables D);
      [contradiction|discriminate]].
  destruct Hg as (Hgl & Hgi & Hgo), Hd as (Hdl & Hdi & Hdo).
  apply forward_writes in Hf. destruct Hf as (_ & Hf).
  assert (H0 : optimizer w0 = optimizer w) by (inversion Hn; reflexivity).
  rewrite Hdl, Hgl, Hf, H0. split; [|reflexivity].
  destruct name.
  - rewrite Hdo by discriminate. rewrite Hgi, Hf, H0. reflexivity.
  - rewrite Hdi, Hgo by discriminate. rewrite Hf, H0. reflexivity.
Qed.

End StepCounters.

(** ** The order of the two optimizers *)

Section StepOrder.

Context {B : Backend}.

Lemma world_ext (w1 w2 : world) :
  (forall v, variables w1 v = variables w2 v) ->
  (forall n, optimizer w1 n = optimizer w2 n) ->
  rng w1 = rng w2 ->
  w1 = w2.
Proof.
  destruct w1 as [v1 o1 r1], w2 as [v2 o2 r2]. simpl. intros Hv Ho Hr.
  apply functional_extensionality in Hv.
  apply functional_extensionality in Ho. subst. reflexivity.
Qed.

Lemma Adam_ext (o1 o2 : Adam) :
  learning_rate o1 = learning_rate o2 ->
  iterations o1 = iterations o2 ->
  (forall v, slot_m o1 v = slot_m o2 v) ->
  (forall v, slot_v o1 v = slot_v o2 v) ->
  o1 = o2.
Proof.
  destruct o1 as [l1 i1 m1 v1], o2 as [l2 i2 m2 v2]. simpl.
  intros Hl Hi Hm Hv.
  apply functional_extensionality in Hm.
  apply functional_extensionality in Hv. subst. reflexivity.
Qed.

Lemma adam_updates_after (name : optimizer_name)
    (gvs : list (tensor * var)) (w : world) :
  adam_updates name gvs w = Some (tt, after (adam_updates name gvs) w).
Proof.
  unfold after.
  destruct (adam_updates_writes name gvs w) as (w' & -> & _). reflexivity.
Qed.

Lemma adam_updates_cons (name : optimizer_name) (g : tensor) (v : var)
    (gvs : list (tensor * var)) (w : world) :
  after (adam_updates name ((g, v) :: gvs)) w
  = after (adam_updates name gvs) (after (adam_update name g v) w).
Proof.
  destruct (adam_update_writes name g v w) as (w1 & H1 & _).
  destruct (adam_updates_writes name gvs w1) as (w2 & H2 & _).
  unfold after. cbn [adam_updates]. unfold bind. rewrite H1, H2.
  reflexivity.
Qed.

Lemma apply_gradients_after (name : optimizer_name)
    (gvs : list (tensor * var)) (w : world) :
  gvs <> [] ->
  apply_gradients name gvs w
  = Some (tt, after (count_step name) (after (adam_updates name gvs) w)).
Proof.
  intros Hne. unfold apply_gradients.
  destruct gvs as [|gv rest] eqn:E; [contradiction|]. rewrite <- E.
  unfold bind. rewrite adam_updates_after. reflexivity.
Qed.

(** Updates of different variables by different optimizers can be
    exchanged. *)
Lemma adam_update_exchange (n1 n2 : optimizer_name) (g1 g2 : tensor)
    (v1 v2 : var) (w : world) :
  n1 <> n2 -> v1 <> v2 ->
  after (adam_update n2 g2 v2) (after (adam_update n1 g1 v1) w)
  = after (adam_update n1 g1 v1) (after (adam_update n2 g2 v2) w).
Proof.
  intros Hn Hv.
  assert (E12 : (v1 =? v2) = false) by (apply Nat.eqb_neq; exact Hv).
  assert (E21 : (v2 =? v1) = false)
    by (apply Nat.eqb_neq; intros E; apply Hv; symmetry; exact E).
  destruct n1, n2; try contradiction;
    (apply world_ext;
     [ intros u; unfold after, adam_update; cbn -[Nat.eqb pow sqrt];
       rewrite ?E12, ?E21;
       destruct (Nat.eqb_spec u v1) as [E1|H1];
       destruct (Nat.eqb_spec u v2) as [E2|H2];
       try reflexivity; congruence
     | intros n; unfold after, adam_update; cbn -[Nat.eqb pow sqrt];
       rewrite ?E12, ?E21; destruct n; reflexivity
     | reflexivity ]).
Qed.

Lemma count_step_exchange_update (n1 n2 : optimizer_name) (g : tensor)
    (v : var) (w : world) :
  n1 <> n2 ->
  after (adam_update n2 g v) (after (count_step n1) w)
  = after (count_step n1) (after (adam_update n2 g v) w).
Proof.
  intros Hn.
  destruct n1, n2; try contradiction;
    (apply world_ext;
     [ intros u; reflexivity | intros n; destruct n; reflexivity
     | reflexivity ]).
Qed.

Lemma count_step_exchange (n1 n2 : optimizer_name) (w : world) :
  n1 <> n2 ->
  after (count_step n2) (after (count_step n1) w)
  = after (count_step n1) (after (count_step n2) w).
Proof.
  intros Hn.
  destruct n1, n2; try contradiction;
    (apply world_ext;
     [ intros u; reflexivity | intros n; destruct n; reflexivity
     | reflexivity ]).
Qed.

Lemma adam_updates_exchange_update (n1 n2 : optimizer_name) (g1 : tensor)
    (v1 : var) (gvs : list (tensor * var)) :
  n1 <> n2 -> ~ In v1 (map snd gvs) ->
  forall w,
  after (adam_updates n2 gvs) (after (adam_update n1 g1 v1) w)
  = after (adam_update n1 g1 v1) (after (adam_updates n2 gvs) w).
Proof.
  intros Hn. induction gvs as [|[g v] gvs IH]; intros Hv w.
  - reflexivity.
  - simpl in Hv. rewrite !adam_updates_cons.
    assert (Hv1 : v1 <> v) by (intros E; apply Hv; left; symmetry; exact E).
    rewrite (adam_update_exchange g1 g w Hn Hv1).
    apply IH. tauto.
Qed.

Lemma adam_updates_exchange (n1 n2 : optimizer_name)
    (gvs1 gvs2 : list (tensor * var)) :
  n1 <> n2 ->
  (forall v, In v (map snd gvs1) -> ~ In v (map snd gvs2)) ->
  forall w,
  after (adam_updates n2 gvs2) (after (adam_updates n1 gvs1) w)
  = after (adam_updates n1 gvs1) (after (adam_updates n2 gvs2) w).
Proof.
  intros Hn. induction gvs1 as [|[g v] gvs1 IH]; intros Hd w.
  - reflexivity.
  - rewrite !adam_updates_cons. rewrite IH.
    + f_equal. apply adam_updates_exchange_update.
      * exact Hn.
      * apply Hd. left. reflexivity.
    + intros u Hu. apply Hd. right. exact Hu.
Qed.

Lemma count_step_exchange_updates (n1 n2 : optimizer_name)
    (gvs : list (tensor * var)) :
  n1 <> n2 ->
  forall w,
  after (adam_updates n2 gvs) (after (count_step n1) w)
  = after (count_step n1) (after (adam_updates n2 gvs) w).
Proof.
  intros Hn. induction gvs as [|[g v] gvs IH]; intros w.
  - reflexivity.
  - rewrite !adam_updates_cons.
    rewrite count_step_exchange_update by exact Hn. apply IH.
Qed.

(** X11: when the two models have no trainable variable in common, as
    models built one after the other have none, exchanging the two
    optimizer applications changes nothing at all: the step returns the
    same losses and leaves the same variables, optimizer states and random
    generator behind. *)
Theorem train_step_order_leaves_same_world (G D : Sequential)
    (images : tensor) (w : world) :
  (forall v, In v (trainable_variables G) ->
             ~ In v (trainable_variables D)) ->
  train_step_swapped G D images w = train_step G D images w.
Proof.
  intros Hd. unfold train_step_swapped, train_step.
  destruct (shape images) as [|n s]; [reflexivity|].
  unfold bind, get_world.
  destruct (random_normal [n; noise_dim] w) as [[noise w0]|]; [|reflexivity].
  destruct (forward G D images noise w0) as [[l w1]|]; [|reflexivity].
  remember (combine (tape_gradient G D w0 images noise fst
                       (trainable_variables G)) (trainable_variables G))
    as gG eqn:EG.
  remember (combine (tape_gradient G D w0 images noise snd
                       (trainable_variables D)) (trainable_variables D))
    as gD eqn:ED.
  assert (Hdis : forall v, In v (map snd gG) -> ~ In v (map snd gD)).
  { intros v HvG HvD. subst gG gD.
    apply in_map_iff in HvG. destruct HvG as ([g1 v1] & <- & HG).
    apply in_map_iff in HvD. destruct HvD as ([g2 v2] & Hv & HD).
    simpl in *. subst v2.
    apply in_combine_r in HG. apply in_combine_r in HD.
    exact (Hd _ HG HD). }
  clear EG ED.
  destruct gG as [|a gG']; destruct gD as [|b gD'].
  - unfold apply_gradients. destruct empty_gradients_raise; reflexivity.
  - unfold apply_gradients.
    destruct empty_gradients_raise; unfold raise, ret;
      destruct ((adam_updates discriminator_optimizer (b :: gD');;;
                 count_step discriminator_optimizer) w1) as [[[] w2]|];
      reflexivity.
  - unfold apply_gradients.
    destruct empty_gradients_raise; unfold raise, ret;
      destruct ((adam_updates generator_optimizer (a :: gG');;;
                 count_step generator_optimizer) w1) as [[[] w2]|];
      reflexivity.
  - set (gG := a :: gG') in *. set (gD := b :: gD') in *.
    assert (HGne : gG <> []) by discriminate.
    assert (HDne : gD <> []) by discriminate.
    rewrite (apply_gradients_after discriminator_optimizer w1 HDne).
    rewrite (apply_gradients_after generator_optimizer w1 HGne).
    lazy beta iota.
    rewrite (apply_gradients_after generator_optimizer _ HGne).
    rewrite (apply_gradients_after discriminator_optimizer _ HDne).
    unfold ret. do 2 f_equal.
    assert (Hneq : generator_optimizer <> discriminator_optimizer)
      by discriminate.
    assert (Hneq' : discriminator_optimizer <> generator_optimizer)
      by discriminate.
    rewrite (count_step_exchange_updates gG Hneq').
    rewrite (count_step_exchange _ Hneq').
    rewrite <- (adam_updates_exchange gG gD Hneq Hdis).
    rewrite <- (count_step_exchange_updates gD Hneq).
    reflexivity.
Qed.

End StepOrder.

(** ** How the two losses hang together *)

Section StepLosses.

Context {B : Backend}.

Local Open Scope R_scope.

Lemma reduce_sum_minus (f g : R -> R) (l : list R) :
  reduce_sum (map (fun x => f x - g x) l)
  = reduce_sum (map f l) - reduce_sum (map g l).
Proof. induction l as [|x l IH]; simpl; [lra|]. rewrite IH. lra. Qed.

Lemma reduce_mean_minus (f g : R -> R) (l : list R) :
  reduce_mean (map (fun x => f x - g x) l)
  = reduce_mean (map f l) - reduce_mean (map g l).
Proof.
  unfold reduce_mean. rewrite !length_map.
  destruct (length l =? 0)%nat; [lra|].
  rewrite reduce_sum_minus. unfold Rdiv. lra.
Qed.

Lemma cross_entropy_ones_zeros (t : tensor) :
  cross_entropy (ones_like t) t
  = cross_entropy (zeros_like t) t - reduce_mean (data t).
Proof.
  unfold cross_entropy, ones_like, zeros_like. simpl.
  rewrite !combine_constant, !map_map. simpl.
  rewrite <- (map_id (data t)) at 3.
  rewrite <- reduce_mean_minus. f_equal. apply map_ext. intros x.
  unfold sigmoid_cross_entropy_with_logits. lra.
Qed.

(** X12: in every step that returns, the generator loss is not negative,
    and the discriminator loss is the cross-entropy of the real scores
    against ones, plus the generator loss, plus the mean score of the
    generated images. *)
Theorem train_step_losses_linked (G D : Sequential) (images : tensor)
    (w w' : world) (gen_loss disc_loss : R) :
  train_step G D images w = Some ((gen_loss, disc_loss), w') ->
  exists noise real_output fake_output,
    forward_passes G D images w noise real_output fake_output
    /\ 0 <= gen_loss
    /\ disc_loss
       = cross_entropy (ones_like real_output) real_output
         + gen_loss + reduce_mean (data fake_output).
Proof.
  intros H.
  destruct (@train_step_losses_inv B G D images w w' gen_loss disc_loss H)
    as (noise & r & f & Hp & Hg & Hd).
  exists noise, r, f. split; [exact Hp|]. subst gen_loss disc_loss. split.
  - apply (cross_entropy_constant_nonneg f (or_intror eq_refl)).
  - rewrite (cross_entropy_ones_zeros f). lra.
Qed.

Lemma reduce_mean_quotient (l : list R) :
  reduce_mean l = fold_right Rplus 0 l / INR (length l).
Proof.
  unfold reduce_mean. destruct l as [|x l]; [|reflexivity].
  simpl. unfold Rdiv. rewrite Rmult_0_l. reflexivity.
Qed.

(** X21: in every step that returns, the two losses are the textbook
    binary cross-entropies of the sigmoid of the raw scores, written out:
    the generator loss is the mean of [- ln (sigmoid f)] over the scores
    [f] of the generated images, and the discriminator loss is the mean of
    [- ln (sigmoid r)] over the scores [r] of the real images plus the mean
    of [- ln (1 - sigmoid f)]. *)
Theorem train_step_losses_textbook (G D : Sequential) (images : tensor)
    (w w' : world) (gen_loss disc_loss : R) :
  train_step G D images w = Some ((gen_loss, disc_loss), w') ->
  exists noise real_output fake_output,
    forward_passes G D images w noise real_output fake_output
    /\ gen_loss
       = fold_right Rplus 0
           (map (fun f => - ln (1 / (1 + exp (- f)))) (data fake_output))
         / INR (length (data fake_output))
    /\ disc_loss
       = fold_right Rplus 0
           (map (fun r => - ln (1 / (1 + exp (- r)))) (data real_output))
         / INR (length (data real_output))
         + fold_right Rplus 0
             (map (fun f => - ln (1 - 1 / (1 + exp (- f))))
                (data fake_output))
           / INR (length (data fake_output)).
Proof.
  intros H.
  destruct (@train_step_losses_inv B G D images w w' gen_loss disc_loss H)
    as (noise & r & f & Hp & Hg & Hd).
  exists noise, r, f. split; [exact Hp|]. subst gen_loss disc_loss.
  unfold ones_like, zeros_like. rewrite !cross_entropy_constant.
  rewrite !reduce_mean_quotient, !length_map.
  assert (E1 : forall t : tensor,
             map (fun x => binary_cross_entropy 1 (sigmoid x)) (data t)
             = map (fun x => - ln (1 / (1 + exp (- x)))) (data t)).
  { intros t. apply map_ext. intros x.
    unfold binary_cross_entropy, sigmoid. lra. }
  assert (E0 : map (fun x => binary_cross_entropy 0 (sigmoid x)) (data f)
               = map (fun x => - ln (1 - 1 / (1 + exp (- x)))) (data f)).
  { apply map_ext. intros x. unfold binary_cross_entropy, sigmoid. lra. }
  rewrite !E1, E0. split; reflexivity.
Qed.

End StepLosses.

(** ** How many images the submission cell writes *)

Lemma ceil_div_bounds (total batch : nat) :
  0 < batch ->
  total <= ceil_div total batch * batch < total + batch.
Proof.
  intros Hb. destruct (Nat.eq_dec (total mod batch) 0) as [Hm|Hm].
  - rewrite ceil_div_exact by assumption. lia.
  - destruct (@ceil_div_inexact total batch Hb Hm) as (Hc & Hlt).
    rewrite Hc in *.
    pose proof (Nat.div_mod_eq total batch) as Ht. nia.
Qed.

Section PackageCounts.

Context {B : Backend}.

(** X13: for every batch size above 0 and every count asked for, an
    archive the cell returns holds a whole number of batches, at least as
    many entries as were asked for and fewer than one batch more, named
    [0.png], [1.png], ... without a gap; asked for no image, it returns an
    empty archive. *)
Theorem package_count_bounds (G : Sequential) (total batch : nat)
    (w w' : world) (z : ZipFile) :
  0 < batch ->
  package G total batch w = Some (z, w') ->
  total <= length z < total + batch
  /\ length z mod batch = 0
  /\ map fst z = map img_name (seq 0 (length z))
  /\ (total = 0 -> z = []).
Proof.
  intros Hb H. pose proof (package_names G total w Hb H) as Hn.
  assert (Hl : length z = ceil_div total batch * batch).
  { rewrite <- (length_map fst z), Hn, length_map, length_seq.
    reflexivity. }
  pose proof (@ceil_div_bounds total batch Hb) as Hc.
  split; [rewrite Hl; exact Hc|]. split; [|split].
  - rewrite Hl. apply Nat.Div0.mod_mul.
  - rewrite Hl. exact Hn.
  - intros ->. destruct z as [|e z]; [reflexivity|]. exfalso.
    assert (H0 : ceil_div 0 batch = 0)
      by (unfold ceil_div; apply Nat.div_small; lia).
    rewrite H0 in Hl. discriminate.
Qed.

(** X14: the line the cell prints names the count that was asked for;
    that is the number of entries in the archive exactly when the batch
    size divides it. *)
Theorem package_cell_message (G : Sequential) (total batch : nat)
    (w w' : world) (z : ZipFile) (message : string) :
  package_cell G total batch w = Some ((z, message), w') ->
  message = ("Successfully created images.zip with " ++ str total
             ++ " images.")%string
  /\ (length z = total <-> total mod batch = 0).
Proof.
  unfold package_cell. intros H. bind_inv H as z' w1 Hp.
  inversion H; subst. split; [reflexivity|].
  destruct (Nat.eq_dec batch 0) as [->|Hb].
  { rewrite package_zero_batch in Hp. discriminate. }
  assert (Hb' : 0 < batch) by lia.
  pose proof (package_names G total w Hb' Hp) as Hn.
  assert (Hl : length z = ceil_div total batch * batch).
  { rewrite <- (length_map fst z), Hn, length_map, length_seq.
    reflexivity. }
  rewrite Hl. split.
  - intros He. rewrite <- He. apply Nat.Div0.mod_mul.
  - intros Hm. apply ceil_div_exact; assumption.
Qed.

End PackageCounts.

(** ** Reading and normalising a painting *)

Section DataFacts.

Context {C : Codec}.

Lemma decode_jpeg_bytes (contents : bytes) (picture : ndarray Z) :
  decode_jpeg contents = Some picture ->
  (exists h w, shape picture = [h; w; 3%N])
  /\ Forall (fun b => (0 <= b <= 255)%Z) (data picture).
Proof.
  unfold decode_jpeg.
  destruct (decoded_picture contents) as [[[h w] f]|]; [|discriminate].
  intros H. inversion H; subst. simpl. split; [exists h, w; reflexivity|].
  apply Forall_forall. intros b Hb. apply in_map_iff in Hb.
  destruct Hb as (k & <- & _).
  pose proof (Byte.to_N_bounded (f k)). lia.
Qed.

Lemma decode_image_inv (contents : bytes) (p : tensor) :
  decode_image contents = Some p ->
  exists picture resized,
    decode_jpeg contents = Some picture
    /\ resize picture (64, 64)%N = Some resized
    /\ shape resized = [64; 64; 3]%N
    /\ well_formed resized
    /\ p = sub_scalar (div_scalar resized 127.5) 1.
Proof.
  unfold decode_image.
  destruct (decode_jpeg contents) as [picture|] eqn:Hd; [|discriminate].
  destruct (decode_jpeg_bytes _ Hd) as ((h & w & Hs) & _).
  destruct (resize picture (64, 64)%N) as [resized|] eqn:Hr; [|discriminate].
  intros H. inversion H; subst. exists picture, resized.
  split; [reflexivity|]. split; [exact Hr|].
  unfold resize in Hr. rewrite Hs in Hr. cbn [fst snd] in Hr.
  inversion Hr; subst. split; [reflexivity|]. split; [|reflexivity].
  unfold well_formed. cbn [data shape]. apply tabulate_length.
Qed.

Local Open Scope R_scope.

(** X15: what [decode_image] returns is one 64 by 64 colour image with as
    many entries as its shape asks for.  Where the resized entries lie in
    [[0, 255]], the returned ones, computed in float32 arithmetic, lie in
    [[-1, 1]], the range of the generator's [tanh], and the ones the
    plotting cell shows, [(p + 1) / 2], in [[0, 1]]: the rounding never
    takes an entry out of its range. *)
Theorem decode_image_normalises (contents : bytes) (p : tensor) :
  decode_image contents = Some p ->
  shape p = [64; 64; 3]%N
  /\ well_formed p
  /\ exists picture resized,
       decode_jpeg contents = Some picture
       /\ resize picture (64, 64)%N = Some resized
       /\ (Forall (fun x => 0 <= x <= 255) (data resized) ->
           Forall (fun x => -1 <= x <= 1) (data p)
           /\ Forall (fun x => 0 <= x <= 1)
                (data (div_scalar (add_scalar p 1) 2))).
Proof.
  intros H. destruct (decode_image_inv _ H)
    as (picture & resized & Hd & Hr & Hs & Hw & ->).
  split; [exact Hs|]. split.
  { unfold well_formed in *. simpl. rewrite !length_map. exact Hw. }
  exists picture, resized. split; [exact Hd|]. split; [exact Hr|].
  intros Hb.
  assert (Hp : forall x, 0 <= x <= 255 ->
                 -1 <= float32 (float32 (x / 127.5) - 1) <= 1).
  { intros x Hx.
    pose proof (@float32_between (x / 127.5) 1 ltac:(lia)) as Ha.
    simpl in Ha.
    pose proof (@float32_pow2_bound (float32 (x / 127.5) - 1) 0 ltac:(lia))
      as Hq. simpl in Hq.
    apply Rabs_le_inv. apply Hq. apply Rabs_le. lra. }
  assert (Hq : forall y, -1 <= y <= 1 ->
                 0 <= float32 (float32 (y + 1) / 2) <= 1).
  { intros y Hy.
    pose proof (@float32_between (y + 1) 1 ltac:(lia)) as Ha. simpl in Ha.
    pose proof (@float32_between (float32 (y + 1) / 2) 0 ltac:(lia)) as Hc.
    simpl in Hc. apply Hc. lra. }
  simpl. rewrite !map_map. split.
  - apply Forall_forall. intros y Hy. apply in_map_iff in Hy.
    destruct Hy as (x & <- & Hx).
    rewrite Forall_forall in Hb. exact (Hp x (Hb x Hx)).
  - apply Forall_forall. intros y Hy. apply in_map_iff in Hy.
    destruct Hy as (x & <- & Hx).
    rewrite Forall_forall in Hb. exact (Hq _ (Hp x (Hb x Hx))).
Qed.

Local Close Scope R_scope.

Lemma parse_tfrecord (example : Example) :
  parse_single_example example tfrecord_format
  = match fixed_len_string "image" example,
          fixed_len_string "id" example with
    | Some image, Some id => Some [("image"%string, image); ("id"%string, id)]
    | _, _ => None
    end.
Proof.
  unfold tfrecord_format. simpl.
  destruct (fixed_len_string "image" example);
    destruct (fixed_len_string "id" example); reflexivity.
Qed.

Lemma read_tfrecord_shape (example : Example) (t : tensor) :
  read_tfrecord example = Some t -> shape t = [64; 64; 3]%N.
Proof.
  unfold read_tfrecord.
  destruct (parse_single_example example tfrecord_format) as [d|];
    [|discriminate].
  destruct (getitem_dict d "image") as [image|]; [|discriminate].
  intros H.
  destruct (decode_image_inv _ H) as (pic & r & _ & _ & Hs & _ & ->).
  exact Hs.
Qed.

(** X16: [read_tfrecord] needs both features of its format: a record
    without exactly one byte string under [id], or under [image], makes it
    raise, although the identifier is never used; with both it returns
    what [decode_image] makes of the image bytes alone, a 64 by 64 colour
    image when it returns one. *)
Theorem read_tfrecord_needs_both_features (example : Example) :
  (fixed_len_string "id" example = None -> read_tfrecord example = None)
  /\ (fixed_len_string "image" example = None -> read_tfrecord example = None)
  /\ (forall image id,
        fixed_len_string "image" example = Some image ->
        fixed_len_string "id" example = Some id ->
        read_tfrecord example = decode_image image)
  /\ (forall t, read_tfrecord example = Some t -> shape t = [64; 64; 3]%N).
Proof.
  split; [|split; [|split]]; try exact (read_tfrecord_shape example);
    unfold read_tfrecord; rewrite parse_tfrecord.
  - intros ->. destruct (fixed_len_string "image" example); reflexivity.
  - intros ->. reflexivity.
  - intros image id -> ->. reflexivity.
Qed.

End DataFacts.

(** ** Batches of paintings and the plotting cell *)

Lemma chunks_nil (A : Type) (fuel n : nat) : @chunks A fuel n [] = [].
Proof. destruct fuel; reflexivity. Qed.

Lemma chunks_sizes (A : Type) (n : nat) :
  0 < n ->
  forall fuel (l : list A),
  Forall (fun g => 0 < length g <= n /\ incl g l) (chunks fuel n l).
Proof.
  intros Hn. induction fuel as [|fuel IH]; intros l; simpl; [constructor|].
  destruct l as [|a l]; [constructor|].
  constructor.
  - rewrite length_firstn. split.
    + simpl length. lia.
    + intros x Hx. exact (In_firstn _ _ _ Hx).
  - specialize (IH (skipn n (a :: l))).
    eapply Forall_impl; [|exact IH].
    intros g (Hg & Hi). split; [exact Hg|].
    intros x Hx. exact (In_skipn _ _ _ (Hi x Hx)).
Qed.

Lemma chunks_concat (A : Type) (n : nat) :
  0 < n ->
  forall fuel (l : list A), length l <= fuel ->
  concat (chunks fuel n l) = l.
Proof.
  intros Hn. induction fuel as [|fuel IH]; intros l Hl; simpl.
  - destruct l; [reflexivity|simpl in Hl; lia].
  - destruct l as [|a l]; [reflexivity|].
    cbn [concat]. rewrite IH.
    + apply firstn_skipn.
    + rewrite length_skipn. simpl length in *. lia.
Qed.

Lemma chunks_first (A : Type) (n : nat) (l : list A) :
  l <> [] ->
  firstn 1 (chunks (length l) n l) = [firstn n l].
Proof.
  destruct l as [|a l]; [contradiction|]. intros _. reflexivity.
Qed.

Lemma sequence_Some (A : Type) (l : list (option A)) (r : list A) :
  sequence l = Some r <-> l = map Some r.
Proof.
  revert r. induction l as [|[a|] l IH]; intros r; simpl.
  - split; intros H.
    + inversion H. reflexivity.
    + destruct r; [reflexivity|discriminate].
  - destruct (sequence l) as [r'|].
    + split; intros H.
      * inversion H; subst. simpl. f_equal. apply IH. reflexivity.
      * destruct r as [|b r]; [discriminate|]. inversion H; subst.
        f_equal. f_equal. assert (E : Some r' = Some r)
          by (apply IH; reflexivity).
        inversion E. reflexivity.
    + split; intros H; [discriminate|].
      destruct r as [|b r]; [discriminate|]. inversion H; subst.
      assert (E : None = Some r) by (apply IH; reflexivity). discriminate.
  - split; intros H; [discriminate|].
    destruct r; discriminate.
Qed.

Lemma stack_shape (ts : list tensor) (images : tensor) (s : list N) :
  stack ts = Some images ->
  Forall (fun t => shape t = s) ts ->
  ts <> [] /\ shape images = N.of_nat (length ts) :: s.
Proof.
  unfold stack. destruct ts as [|t ts]; [discriminate|].
  destruct (forallb _ _); [|discriminate].
  intros H Hs. inversion H; subst. split; [discriminate|]. simpl.
  inversion Hs; subst. reflexivity.
Qed.

Lemma stack_returns (ts : list tensor) (s : list N) :
  ts <> [] -> Forall (fun t => shape t = s) ts ->
  exists images, stack ts = Some images.
Proof.
  intros Hne Hs. unfold stack. destruct ts as [|t ts]; [contradiction|].
  assert (Hf : forallb (fun u => shape_eqb (shape u) (shape t)) (t :: ts)
               = true).
  { apply forallb_forall. intros u Hu. rewrite Forall_forall in Hs.
    rewrite (Hs u Hu), (Hs t (or_introl eq_refl)). apply shape_eqb_refl. }
  rewrite Hf. eexists. reflexivity.
Qed.

Section BatchFacts.

Context {C : Codec}.

Lemma read_shapes (records : list Example) (ts : list tensor) :
  incl (map Some ts) (ds_map read_tfrecord (map Some records)) ->
  Forall (fun t => shape t = [64; 64; 3]%N) ts.
Proof.
  intros Hi. apply Forall_forall. intros t Ht.
  assert (Hin : In (Some t) (ds_map read_tfrecord (map Some records)))
    by (apply Hi, in_map; exact Ht).
  unfold ds_map in Hin. rewrite map_map in Hin.
  apply in_map_iff in Hin. destruct Hin as (r & Hr & _).
  exact (read_tfrecord_shape r Hr).
Qed.

End BatchFacts.

Lemma chunks_map (A E : Type) (f : A -> E) (n : nat) :
  forall fuel (l : list A),
  chunks fuel n (map f l) = map (map f) (chunks fuel n l).
Proof.
  induction fuel as [|fuel IH]; intros l; simpl; [reflexivity|].
  destruct l as [|a l]; [reflexivity|].
  cbn [map]. rewrite <- (IH (skipn n (a :: l))).
  change (f a :: map f l) with (map f (a :: l)).
  rewrite firstn_map, skipn_map. reflexivity.
Qed.

Lemma all_read (A E : Type) (f : A -> option E) (l : list A) :
  Forall (fun a => f a <> None) l ->
  exists r, map f l = map Some r /\ length r = length l.
Proof.
  induction 1 as [|a l Ha Hl (r & Hr & Hlen)].
  - exists []. split; reflexivity.
  - destruct (f a) as [e|] eqn:He; [|contradiction].
    exists (e :: r). simpl. rewrite He, Hr, Hlen. split; reflexivity.
Qed.

Lemma getitem_past_end (A : Type) (a : ndarray A) (n : nat) (s : list N) :
  shape a = N.of_nat n :: s -> getitem a n = None.
Proof.
  intros Hs. unfold getitem. rewrite Hs.
  rewrite N.ltb_irrefl. reflexivity.
Qed.

Lemma show_images_raises (images : tensor) (i : nat) (indices : list nat) :
  In i indices -> getitem images i = None ->
  show_images images indices = None.
Proof.
  intros Hi Hg. induction indices as [|j indices IH]; [contradiction|].
  simpl. destruct Hi as [->|Hi].
  - rewrite Hg. reflexivity.
  - destruct (getitem images j); [|reflexivity].
    rewrite (IH Hi). reflexivity.
Qed.

Lemma show_images_returns (images : tensor) (n : N) (s : list N)
    (indices : list nat) :
  shape images = n :: s ->
  Forall (fun i => (N.of_nat i < n)%N) indices ->
  exists shown,
    show_images images indices = Some shown
    /\ map fst shown = map (fun i => i + 1) indices
    /\ Forall (fun p => shape (snd p) = s) shown.
Proof.
  intros Hs. induction 1 as [|i indices Hi Hrest (shown & Hsh & Hf & Hshape)].
  - exists []. repeat split. constructor.
  - simpl. unfold getitem at 1. rewrite Hs.
    destruct (N.ltb_spec (N.of_nat i) n) as [_|Hge]; [|lia].
    rewrite Hsh. eexists. split; [reflexivity|]. simpl. rewrite Hf.
    split; [reflexivity|]. constructor; [reflexivity|exact Hshape].
Qed.

Section PlotFacts.

Context {C : Codec}.

Lemma first_batch (records : list Example) :
  records <> [] ->
  ds_take 1 (monet_ds records)
  = [batch_of (map read_tfrecord (firstn 8 records))].
Proof.
  intros Hne. unfold ds_take, monet_ds, ds_batch, ds_map.
  rewrite map_map. rewrite firstn_map.
  rewrite chunks_first by (destruct records; [contradiction|discriminate]).
  rewrite firstn_map. reflexivity.
Qed.

Lemma batch_of_shape (records : list Example) (images : tensor) :
  batch_of (map read_tfrecord records) = Some images ->
  shape images = [N.of_nat (length records); 64; 64; 3]%N.
Proof.
  unfold batch_of.
  destruct (sequence (map read_tfrecord records)) as [ts|] eqn:Hq;
    [|discriminate].
  apply sequence_Some in Hq. intros Hst.
  assert (Hs : Forall (fun t => shape t = [64; 64; 3]%N) ts).
  { apply (read_shapes records). unfold ds_map. rewrite map_map.
    rewrite <- Hq. apply incl_refl. }
  destruct (stack_shape Hst Hs) as (_ & Hsh).
  rewrite Hsh. f_equal. f_equal.
  rewrite <- (length_map Some ts), <- Hq, length_map. reflexivity.
Qed.

(** X18: the plotting cell reads the first eight records at most.  With
    no record it shows nothing; with one to seven records it raises,
    whatever they hold, since it asks the first batch for eight images. *)
Theorem show_samples_needs_eight (records : list Example) :
  show_samples records = show_samples (firstn 8 records)
  /\ (records = [] -> show_samples records = Some [])
  /\ (0 < length records < 8 -> show_samples records = None).
Proof.
  split; [|split].
  - unfold show_samples. destruct records as [|r records]; [reflexivity|].
    rewrite !first_batch by discriminate.
    rewrite firstn_firstn. reflexivity.
  - intros ->. reflexivity.
  - intros Hl. unfold show_samples.
    rewrite first_batch by (destruct records; [simpl in Hl; lia|discriminate]).
    rewrite firstn_all2 by lia.
    destruct (batch_of (map read_tfrecord records)) as [images|] eqn:Hb;
      [|reflexivity].
    apply batch_of_shape in Hb. cbn [show_batches].
    rewrite (show_images_raises images (length records) (seq 0 8));
      [reflexivity| |].
    + apply in_seq. lia.
    + eapply getitem_past_end. exact Hb.
Qed.

(** X19: with eight records or more, the first eight readable, the cell
    shows eight 64 by 64 colour images, at the positions 1 to 8. *)
Theorem show_samples_shows_eight (records : list Example) :
  8 <= length records ->
  Forall (fun r => read_tfrecord r <> None) (firstn 8 records) ->
  exists shown,
    show_samples records = Some shown
    /\ map fst shown = seq 1 8
    /\ Forall (fun p => shape (snd p) = [64; 64; 3]%N) shown.
Proof.
  intros Hl Hr. unfold show_samples.
  rewrite first_batch by (destruct records; [simpl in Hl; lia|discriminate]).
  destruct (all_read _ Hr) as (ts & Hts & Hlen).
  rewrite length_firstn, Nat.min_l in Hlen by exact Hl.
  assert (Hs : Forall (fun t => shape t = [64; 64; 3]%N) ts).
  { apply (read_shapes (firstn 8 records)). unfold ds_map.
    rewrite map_map. rewrite <- Hts. apply incl_refl. }
  assert (Hne : ts <> []) by (destruct ts; [discriminate|discriminate]).
  destruct (stack_returns Hne Hs) as (images & Hst).
  destruct (stack_shape Hst Hs) as (_ & Hsh). rewrite Hlen in Hsh.
  assert (Hb : batch_of (map read_tfrecord (firstn 8 records)) = Some images).
  { unfold batch_of. rewrite Hts.
    rewrite (proj2 (sequence_Some (map Some ts) ts) eq_refl). exact Hst. }
  rewrite Hb. cbn [show_batches].
  assert (Hidx : Forall (fun i => (N.of_nat i < N.of_nat 8)%N) (seq 0 8)).
  { apply Forall_forall. intros i Hi. apply in_seq in Hi. lia. }
  destruct (show_images_returns images Hsh Hidx) as (shown & H1 & H2 & H3).
  rewrite H1. exists (shown ++ []). rewrite app_nil_r.
  split; [reflexivity|]. split; [exact H2|exact H3].
Qed.

(** X17: every batch [monet_ds] delivers holds between one and eight
    64 by 64 colour images, and the notebook's discriminator, in training
    and at inference, returns one score for each of them. *)
Theorem monet_batches_fit_discriminator (records : list Example)
    (images : tensor) :
  In (Some images) (monet_ds records) ->
  exists k,
    1 <= k <= 8
    /\ shape images = [N.of_nat k; 64; 64; 3]%N
    /\ forall (B : Backend) (training : bool) (w : world),
         exists scores w',
           call discriminator images training w = Some (scores, w')
           /\ shape scores = [N.of_nat k; 1]%N.
Proof.
  unfold monet_ds, ds_batch. intros Hin.
  apply in_map_iff in Hin. destruct Hin as (group & Hg & Hc).
  unfold batch_of in Hg.
  pose proof (chunks_sizes (n := 8) ltac:(lia)
                (length (ds_map read_tfrecord (map Some records)))
                (ds_map read_tfrecord (map Some records))) as Hsz.
  rewrite Forall_forall in Hsz. destruct (Hsz group Hc) as (Hlen & Hincl).
  destruct (sequence group) as [ts|] eqn:Hq; [|discriminate].
  apply sequence_Some in Hq. subst group.
  assert (Hs : Forall (fun t => shape t = [64; 64; 3]%N) ts)
    by (apply (read_shapes records); exact Hincl).
  destruct (stack_shape Hg Hs) as (_ & Hsh).
  rewrite length_map in Hlen.
  exists (length ts). split; [lia|]. split; [exact Hsh|].
  intros B training w.
  pose proof (call_shape_spec discriminator training images w Hsh) as Hd.
  rewrite discriminator_call_shape in Hd by lia. exact Hd.
Qed.

End PlotFacts.

Lemma sequence_None (A : Type) (l : list (option A)) :
  sequence l = None <-> In None l.
Proof.
  induction l as [|[a|] l IH]; simpl.
  - split; [discriminate|contradiction].
  - destruct (sequence l) as [r|].
    + split; [discriminate|].
      intros [H|H]; [discriminate|]. apply IH in H. discriminate.
    + split; [|reflexivity]. intros _. right. apply IH. reflexivity.
  - split; [|reflexivity]. intros _. left. reflexivity.
Qed.

Lemma stack_data (ts : list tensor) (images : tensor) :
  stack ts = Some images ->
  data images = concat (map (fun t => data t) ts).
Proof.
  unfold stack. destruct ts as [|t ts]; [discriminate|].
  destruct (forallb _ _); [|discriminate].
  intros H. inversion H. reflexivity.
Qed.

Lemma stack_groups (s : list N) (groups : list (list tensor)) :
  Forall (fun g => g <> [] /\ Forall (fun t => shape t = s) g) groups ->
  exists batches,
    map (fun g => batch_of (map Some g)) groups = map Some batches
    /\ concat (map (fun b => data b) batches)
       = concat (map (fun t => data t) (concat groups)).
Proof.
  induction 1 as [|g groups (Hne & Hs) Hrest (batches & Hb & Hd)].
  - exists []. split; reflexivity.
  - destruct (stack_returns Hne Hs) as (images & Hst).
    assert (Hg : batch_of (map Some g) = Some images).
    { unfold batch_of. set (q := sequence _).
      assert (Hq : q = Some g) by (apply sequence_Some; reflexivity).
      rewrite Hq. exact Hst. }
    exists (images :: batches). split.
    + cbn [map]. f_equal; [exact Hg|exact Hb].
    + cbn [map concat]. rewrite map_app, concat_app, Hd, (stack_data _ Hst).
      reflexivity.
Qed.

Section BatchOrder.

Context {C : Codec}.

(** X20: a batch of [monet_ds] raises exactly when a record cannot be
    read; when all can, the batches hold, in the order of the records, the
    entries of every image: no image is dropped at the end. *)
Theorem monet_ds_keeps_every_image (records : list Example) :
  (In None (monet_ds records) <-> In None (map read_tfrecord records))
  /\ forall ts, map read_tfrecord records = map Some ts ->
       exists batches,
         monet_ds records = map Some batches
         /\ concat (map (fun b => data b) batches)
            = concat (map (fun t => data t) ts).
Proof.
  assert (Hds : ds_map read_tfrecord (map Some records)
                = map read_tfrecord records).
  { unfold ds_map. rewrite map_map. reflexivity. }
  unfold monet_ds, ds_batch. rewrite Hds.
  set (ds := map read_tfrecord records) in *.
  pose proof (chunks_sizes (n := 8) ltac:(lia) (length ds) ds) as Hsz.
  pose proof (@chunks_concat _ 8 ltac:(lia) (length ds) ds (le_n _))
    as Hcat.
  split; [split|].
  - intros Hin. apply in_map_iff in Hin. destruct Hin as (g & Hg & Hc).
    rewrite Forall_forall in Hsz. destruct (Hsz g Hc) as (Hlen & Hincl).
    unfold batch_of in Hg.
    destruct (sequence g) as [ts|] eqn:Hq.
    + exfalso. apply sequence_Some in Hq. subst g.
      rewrite length_map in Hlen.
      assert (Hs : Forall (fun t => shape t = [64; 64; 3]%N) ts).
      { apply (read_shapes records). rewrite Hds. exact Hincl. }
      assert (Hne : ts <> []) by (destruct ts; [simpl in Hlen; lia|discriminate]).
      destruct (stack_returns Hne Hs) as (images & Hst). congruence.
    + apply Hincl. apply sequence_None. exact Hq.
  - intros Hin. rewrite <- Hcat in Hin. apply in_concat in Hin.
    destruct Hin as (g & Hc & Hg).
    apply in_map_iff. exists g. split; [|exact Hc].
    unfold batch_of. rewrite (proj2 (sequence_None g) Hg). reflexivity.
  - intros ts Hts. rewrite Hts in *. clear ds Hts.
    rewrite length_map in *. rewrite chunks_map in *.
    assert (Hg : Forall (fun g => g <> []
                                  /\ Forall (fun t => shape t = [64; 64; 3]%N) g)
                   (chunks (length ts) 8 ts)).
    { rewrite Forall_forall in *. intros g Hin.
      destruct (Hsz (map Some g) (in_map _ _ _ Hin)) as (Hlen & Hincl).
      rewrite length_map in Hlen. split.
      - destruct g; [simpl in Hlen; lia|discriminate].
      - apply (read_shapes records). rewrite Hds. exact Hincl. }
    destruct (stack_groups Hg) as (batches & Hb & Hd).
    exists batches. rewrite map_map. split; [exact Hb|].
    rewrite Hd. f_equal. f_equal.
    apply (@chunks_concat _ 8 ltac:(lia) (length ts) ts (le_n _)).
Qed.

End BatchOrder.

(** ** The further properties at concrete inputs *)

Lemma zero_noise_fits_small_generator :
  exists y w',
    call small_generator zero_noise true start_world = Some (y, w').
Proof.
  assert (HG : model_call_shape 1 small_generator [noise_dim]
               = Some [2; 2; 3]%N) by (vm_compute; reflexivity).
  pose proof (call_shape_spec small_generator true zero_noise
                start_world (eq_refl : shape zero_noise = [1; noise_dim]%N))
    as Hc.
  rewrite HG in Hc. destruct Hc as (y & w' & Hy & _).
  exists y, w'. exact Hy.
Qed.

Lemma sample_record_read :
  exists t, @read_tfrecord black_codec sample_record = Some t.
Proof.
  destruct (@read_tfrecord black_codec sample_record) as [t|] eqn:H;
    [exists t; reflexivity|].
  exfalso. unfold read_tfrecord in H. rewrite parse_tfrecord in H.
  change (fixed_len_string "image" sample_record) with (Some (@nil Byte.byte))
    in H.
  change (fixed_len_string "id" sample_record) with (Some (@nil Byte.byte))
    in H.
  cbn [getitem_dict String.eqb Ascii.eqb Bool.eqb] in H.
  unfold decode_image, decode_jpeg in H.
  cbn [decoded_picture black_codec] in H.
  unfold resize in H. cbn [shape fst snd] in H. discriminate.
Qed.

Lemma train_step_returns_no_discriminator_loss_on_black_images :
  exists noise w0 generated_images w1 real_output w2,
    random_normal [2; noise_dim]%N start_world = Some (noise, w0)
    /\ call generator noise true w0 = Some (generated_images, w1)
    /\ shape generated_images = [2; 32; 32; 3]%N
    /\ call discriminator black_images true w1 = Some (real_output, w2)
    /\ shape real_output = [2; 1]%N
    /\ call discriminator generated_images true w2 = None
    /\ train_step generator discriminator black_images start_world = None.
Proof.
  exact (@train_step_returns_no_discriminator_loss zero_backend black_images
           start_world 2%N eq_refl eq_refl).
Defined.

Lemma generated_images_get_no_score_on_zero_noise :
  exists generated_images w1,
    call generator zero_noise true start_world = Some (generated_images, w1)
    /\ shape generated_images = [1; 32; 32; 3]%N
    /\ forall (training' : bool) (w2 : @world zero_backend),
         call discriminator generated_images training' w2 = None.
Proof.
  exact (@generated_images_get_no_score zero_backend zero_noise true
           start_world 1%N eq_refl eq_refl).
Defined.

Lemma generator_returns_images_on_zero_noise :
  exists g w',
    call generator zero_noise false start_world = Some (g, w')
    /\ shape g = [1; 32; 32; 3]%N
    /\ Forall (fun p => (-1 <= p <= 1)%R) (data g).
Proof.
  exact (@generator_returns_images zero_backend zero_noise false start_world
           1%N eq_refl).
Defined.

Lemma discriminator_returns_scores_on_black_images :
  exists scores w',
    call discriminator black_images true start_world = Some (scores, w')
    /\ shape scores = [2; 1]%N
    /\ length (data scores) = 2.
Proof.
  exact (@discriminator_returns_scores zero_backend black_images true
           start_world 2%N eq_refl).
Defined.

Lemma built_models_share_no_variable_in_the_notebook :
  NoDup (model_variables generator)
  /\ NoDup (model_variables discriminator)
  /\ forall v, In v (model_variables generator) ->
               ~ In v (model_variables discriminator).
Proof.
  exact (@built_models_share_no_variable 0 16 22 [100]%N [64; 64; 3]%N _ _
           generator discriminator generator_built discriminator_built).
Defined.

Lemma call_writes_only_moving_statistics_on_small_generator :
  exists y w',
    call small_generator zero_noise true start_world = Some (y, w')
    /\ (forall v, ~ In v (non_trainable_variables small_generator) ->
                  variables w' v = variables start_world v)
    /\ optimizer w' = optimizer start_world.
Proof.
  destruct zero_noise_fits_small_generator as (y & w' & H).
  destruct (@call_writes_only_moving_statistics zero_backend
              small_generator zero_noise y true start_world w' H)
    as (Hv & Ho & _).
  exists y, w'. split; [exact H|]. split; [exact Hv|exact Ho].
Defined.

Lemma train_step_writes_only_the_models_on_small_models :
  exists l w',
    train_step small_generator small_discriminator small_images start_world
    = Some (l, w')
    /\ forall v, ~ In v (model_variables small_generator) ->
                 ~ In v (model_variables small_discriminator) ->
                 variables w' v = variables start_world v.
Proof.
  destruct small_step_returns as (l & w' & H).
  exists l, w'. split; [exact H|].
  exact (@train_step_writes_only_the_models zero_backend small_generator
           small_discriminator small_images start_world w' l H).
Defined.

Lemma train_step_counts_one_step_on_small_models :
  exists l w',
    train_step small_generator small_discriminator small_images start_world
    = Some (l, w')
    /\ forall name,
         iterations (optimizer w' name)
         = S (iterations (optimizer start_world name))
         /\ learning_rate (optimizer w' name)
            = learning_rate (optimizer start_world name).
Proof.
  destruct small_step_returns as (l & w' & H).
  exists l, w'. split; [exact H|].
  destruct small_models_built as (HG & _ & HD).
  apply (@train_step_counts_one_step zero_backend small_generator
           small_discriminator small_images start_world w' l);
    [rewrite HG; discriminate|rewrite HD; discriminate|exact H].
Defined.

Lemma train_step_order_leaves_same_world_on_small_models :
  train_step_swapped small_generator small_discriminator small_images
    start_world
  = train_step small_generator small_discriminator small_images start_world.
Proof.
  apply train_step_order_leaves_same_world.
  intros v Hv Hd. destruct small_models_built as (HG & _ & HD).
  rewrite HG in Hv. rewrite HD in Hd. simpl in Hv, Hd. lia.
Defined.

Lemma train_step_losses_linked_on_small_models :
  exists gen_loss disc_loss w' real_output fake_output,
    train_step small_generator small_discriminator small_images start_world
    = Some ((gen_loss, disc_loss), w')
    /\ (0 <= gen_loss)%R
    /\ disc_loss
       = (cross_entropy (ones_like real_output) real_output
          + gen_loss + reduce_mean (data fake_output))%R.
Proof.
  destruct small_step_returns as ([gen_loss disc_loss] & w' & H).
  destruct (@train_step_losses_linked zero_backend small_generator
              small_discriminator small_images start_world w' gen_loss
              disc_loss H)
    as (noise & real_output & fake_output & _ & Hg & Hd).
  exists gen_loss, disc_loss, w', real_output, fake_output.
  split; [exact H|]. split; [exact Hg|exact Hd].
Defined.

Lemma decode_image_normalises_on_a_black_picture :
  exists p,
    @decode_image black_codec [] = Some p
    /\ shape p = [64; 64; 3]%N
    /\ well_formed p.
Proof.
  destruct (@decode_image black_codec []) as [p|] eqn:H.
  - exists p. split; [reflexivity|].
    destruct (@decode_image_normalises black_codec [] p H) as (Hs & Hw & _).
    split; [exact Hs|exact Hw].
  - exfalso. unfold decode_image, decode_jpeg in H.
    cbn [decoded_picture black_codec] in H.
    unfold resize in H. cbn [shape fst snd] in H. discriminate.
Defined.

Lemma train_step_losses_textbook_on_small_models :
  exists gen_loss disc_loss w' real_output fake_output,
    train_step small_generator small_discriminator small_images start_world
    = Some ((gen_loss, disc_loss), w')
    /\ gen_loss
       = (fold_right Rplus 0
            (map (fun f => - ln (1 / (1 + exp (- f)))) (data fake_output))
          / INR (length (data fake_output)))%R
    /\ disc_loss
       = (fold_right Rplus 0
            (map (fun r => - ln (1 / (1 + exp (- r)))) (data real_output))
          / INR (length (data real_output))
          + fold_right Rplus 0
              (map (fun f => - ln (1 - 1 / (1 + exp (- f))))
                 (data fake_output))
            / INR (length (data fake_output)))%R.
Proof.
  destruct small_step_returns as ([gen_loss disc_loss] & w' & H).
  destruct (@train_step_losses_textbook zero_backend small_generator
              small_discriminator small_images start_world w' gen_loss
              disc_loss H)
    as (noise & real_output & fake_output & _ & Hg & Hd).
  exists gen_loss, disc_loss, w', real_output, fake_output.
  split; [exact H|]. split; [exact Hg|exact Hd].
Defined.

Lemma package_count_bounds_at_7_by_3 :
  exists z w',
    package generator 7 3 start_world = Some (z, w')
    /\ 7 <= length z < 7 + 3
    /\ length z mod 3 = 0
    /\ map fst z = map img_name (seq 0 (length z)).
Proof.
  destruct (@package_generator_returns zero_backend 7 3 start_world)
    as (z & w' & H & _); [lia|].
  destruct (@package_count_bounds zero_backend generator 7 3 start_world w' z)
    as (Hl & Hm & Hn & _); [lia|exact H|].
  exists z, w'. split; [exact H|]. split; [exact Hl|].
  split; [exact Hm|exact Hn].
Defined.

Lemma package_cell_message_at_7_by_3 :
  exists z w',
    package_cell generator 7 3 start_world
    = Some ((z, "Successfully created images.zip with 7 images."%string), w')
    /\ length z <> 7.
Proof.
  destruct (@package_generator_returns zero_backend 7 3 start_world)
    as (z & w' & H & _); [lia|].
  assert (Hc : exists message,
             package_cell generator 7 3 start_world = Some ((z, message), w')).
  { unfold package_cell, bind. rewrite H. eexists. reflexivity. }
  destruct Hc as (message & Hc).
  destruct (@package_cell_message zero_backend generator 7 3 start_world
              w' z message Hc) as (Hm & Hl).
  exists z, w'. split.
  - rewrite Hc, Hm. reflexivity.
  - intros E. apply Hl in E. vm_compute in E. discriminate.
Defined.

Lemma monet_batches_fit_discriminator_on_one_record :
  exists images k,
    In (Some images) (@monet_ds black_codec [sample_record])
    /\ 1 <= k <= 8
    /\ shape images = [N.of_nat k; 64; 64; 3]%N
    /\ exists scores w',
         call discriminator images true start_world = Some (scores, w')
         /\ shape scores = [N.of_nat k; 1]%N.
Proof.
  destruct sample_record_read as (t & Ht).
  assert (Hs : Forall (fun u : tensor => shape u = [64; 64; 3]%N) [t])
    by (constructor; [exact (read_tfrecord_shape sample_record Ht)
                     |constructor]).
  destruct (stack_returns (ts := [t]) ltac:(discriminate) Hs)
    as (images & Hst).
  assert (Hin : In (Some images) (@monet_ds black_codec [sample_record])).
  { unfold monet_ds, ds_batch, ds_map.
    cbn [map length chunks firstn skipn]. left.
    unfold batch_of. rewrite Ht. cbn [sequence]. exact Hst. }
  destruct (@monet_batches_fit_discriminator black_codec [sample_record]
              images Hin) as (k & Hk & Hsh & Hd).
  destruct (Hd zero_backend true start_world) as (scores & w' & Hc & Hss).
  exists images, k. split; [exact Hin|]. split; [exact Hk|].
  split; [exact Hsh|]. exists scores, w'. split; [exact Hc|exact Hss].
Defined.

Lemma show_samples_shows_eight_of_eight_records :
  exists shown,
    @show_samples black_codec (repeat sample_record 8) = Some shown
    /\ map fst shown = seq 1 8
    /\ Forall (fun p => shape (snd p) = [64; 64; 3]%N) shown.
Proof.
  apply show_samples_shows_eight.
  - cbn [repeat length]. lia.
  - destruct sample_record_read as (t & Ht).
    cbn [repeat firstn]. repeat constructor; rewrite Ht; discriminate.
Defined.
